(** * relief-ticket-monitor: a shallow embedding of [monitor.py]

    The definitions follow the layout of the script:
    - [Str]       the string operations the script relies on (f-string
                  concatenation, [join], [strip], [split], [in], the
                  prefix test and the digit class behind the event-link
                  pattern);
    - [Soup]      the parsed page as BeautifulSoup exposes it: tags with
                  their chain of parents, [select], [select_one],
                  [find_parent], [get_text];
    - [Detector]  the three strategies of [check_event_tickets];
    - [Extractor] the data of [get_event_urls]: the artist table, links,
                  event descriptors, the href pattern;
    - [Store]     the persisted state, the dedup key, the pruning filter;
    - [Eff]       exceptions, what the process emits, the clock, the
                  browser and the state file, as a state-and-error monad;
    - [Monitor]   the effectful script: [load_state], [save_state],
                  [get_event_urls], [check_event_tickets], [run_check],
                  the loop of [main].
    The properties come after, one section per component.

    Conventions.  A Python [str] is a [string] holding its UTF-8 bytes;
    the white space of [strip] and the digit class of the href pattern
    are the Unicode ones ([str.isspace], category Nd), read on those
    bytes.  A time is its POSIX timestamp counted in microseconds
    ([Z]): the persisted mapping stores, for a key, the timestamp its
    stored string reads back as.  The script compares timestamps as
    floats; [Store.prune] compares them exactly, which gives the same
    answer except within rounding distance (well under a second) of
    the cutoff; what is stated about the pruning boundary is stated
    for timestamps a second apart or in whole seconds, which floats
    hold exactly.  A dict used as a map is a [gmap].  The page is
    taken as parsed: a list of nodes. *)

From Stdlib Require Import ZArith DecimalString DecimalPos DecimalZ Ascii String.
From stdpp Require Import gmap strings list fin_maps.

Open Scope string_scope.
Open Scope list_scope.
Open Scope Z_scope.

(* ===================================================================== *)
(** ** Strings *)
(* ===================================================================== *)

Module Str.

(** The line feed. *)
Definition nl : string := String "010"%char EmptyString.

(** [str(n)] for a Python int. *)
Definition of_int (n : Z) : string := NilZero.string_of_int (Z.to_int n).

(** [sep.join(l)]. *)
Fixpoint join (sep : string) (l : list string) : string :=
  match l with
  | [] => ""
  | [x] => x
  | x :: l' => x +:+ sep +:+ join sep l'
  end.

(** [needle in hay]. *)
Fixpoint contains (needle hay : string) : bool :=
  String.prefix needle hay ||
  match hay with
  | EmptyString => false
  | String _ hay' => contains needle hay'
  end.

(** The value of a byte. *)
Definition byte (c : ascii) : Z := Z.of_N (N_of_ascii c).

(** The code points [str.isspace] accepts: U+0009 to U+000D, U+001C to
    U+0020, U+0085, U+00A0, U+1680, U+2000 to U+200A, U+2028, U+2029,
    U+202F, U+205F and U+3000. *)
Definition space_codes : list Z :=
  [ 9; 10; 11; 12; 13; 28; 29; 30; 31; 32; 133; 160; 5760;
    8192; 8193; 8194; 8195; 8196; 8197; 8198; 8199; 8200; 8201; 8202;
    8232; 8233; 8239; 8287; 12288 ].

(** The same characters, recognised on the bytes of their UTF-8
    encoding.  One byte: U+0009 to U+000D and U+001C to U+0020. *)
Definition is_space (c : ascii) : bool :=
  let n := nat_of_ascii c in
  ((9 <=? n)%nat && (n <=? 13)%nat) || ((28 <=? n)%nat && (n <=? 32)%nat).

(** Two bytes: U+0085 and U+00A0. *)
Definition is_space2 (c1 c2 : ascii) : bool :=
  (byte c1 =? 194) && ((byte c2 =? 133) || (byte c2 =? 160)).

(** Three bytes: U+1680, U+2000 to U+200A, U+2028, U+2029, U+202F,
    U+205F and U+3000. *)
Definition is_space3 (c1 c2 c3 : ascii) : bool :=
  ((byte c1 =? 225) && (byte c2 =? 154) && (byte c3 =? 128))
  || ((byte c1 =? 226) && (byte c2 =? 128)
      && (((128 <=? byte c3) && (byte c3 <=? 138))
          || (byte c3 =? 168) || (byte c3 =? 169) || (byte c3 =? 175)))
  || ((byte c1 =? 226) && (byte c2 =? 129) && (byte c3 =? 159))
  || ((byte c1 =? 227) && (byte c2 =? 128) && (byte c3 =? 128)).

Fixpoint lstrip (s : string) : string :=
  match s with
  | EmptyString => EmptyString
  | String c1 s1 =>
      if is_space c1 then lstrip s1
      else
        match s1 with
        | EmptyString => s
        | String c2 s2 =>
            if is_space2 c1 c2 then lstrip s2
            else
              match s2 with
              | EmptyString => s
              | String c3 s3 => if is_space3 c1 c2 c3 then lstrip s3 else s
              end
        end
  end.

(** Whether [s] is white space from end to end. *)
Definition blank (s : string) : bool :=
  match lstrip s with
  | EmptyString => true
  | String _ _ => false
  end.

(** [rstrip]: the string is cut where only white space follows. *)
Fixpoint rstrip (s : string) : string :=
  match s with
  | EmptyString => EmptyString
  | String c s' => if blank s then EmptyString else String c (rstrip s')
  end.

(** [s.strip()]. *)
Definition strip (s : string) : string := rstrip (lstrip s).

(** [s.split("\n")[0]]: everything before the first line feed. *)
Fixpoint first_line (s : string) : string :=
  match s with
  | EmptyString => EmptyString
  | String c s' =>
      if Ascii.eqb c "010"%char then EmptyString else String c (first_line s')
  end.

(** The byte of value [z]. *)
Definition chr (z : Z) : ascii := ascii_of_N (Z.to_N z).

(** The UTF-8 encoding of a code point: one to four bytes. *)
Definition utf8 (cp : Z) : string :=
  if cp <? 128 then
    String (chr cp) ""
  else if cp <? 2048 then
    String (chr (192 + cp / 64)) (String (chr (128 + cp mod 64)) "")
  else if cp <? 65536 then
    String (chr (224 + cp / 4096))
      (String (chr (128 + cp / 64 mod 64))
         (String (chr (128 + cp mod 64)) ""))
  else
    String (chr (240 + cp / 262144))
      (String (chr (128 + cp / 4096 mod 64))
         (String (chr (128 + cp / 64 mod 64))
            (String (chr (128 + cp mod 64)) ""))).

(** The decimal digits, the characters [\d] matches in a [str] pattern
    (category Nd of Unicode 14.0, the table of Python 3.11), as ranges
    of code points. *)
Definition decimal_ranges : list (Z * Z) :=
  [ (48, 57); (1632, 1641); (1776, 1785); (1984, 1993); (2406, 2415);
    (2534, 2543); (2662, 2671); (2790, 2799); (2918, 2927); (3046, 3055);
    (3174, 3183); (3302, 3311); (3430, 3439); (3558, 3567); (3664, 3673);
    (3792, 3801); (3872, 3881); (4160, 4169); (4240, 4249); (6112, 6121);
    (6160, 6169); (6470, 6479); (6608, 6617); (6784, 6793); (6800, 6809);
    (6992, 7001); (7088, 7097); (7232, 7241); (7248, 7257);
    (42528, 42537); (43216, 43225); (43264, 43273); (43472, 43481);
    (43504, 43513); (43600, 43609); (44016, 44025); (65296, 65305);
    (66720, 66729); (68912, 68921); (69734, 69743); (69872, 69881);
    (69942, 69951); (70096, 70105); (70384, 70393); (70736, 70745);
    (70864, 70873); (71248, 71257); (71360, 71369); (71472, 71481);
    (71904, 71913); (72016, 72025); (72784, 72793); (73040, 73049);
    (73120, 73129); (92768, 92777); (92864, 92873); (93008, 93017);
    (120782, 120831); (123200, 123209); (123632, 123641);
    (125264, 125273); (130032, 130041) ].

Definition decimal_codes : list Z :=
  flat_map (fun r => seqZ r.1 (r.2 - r.1 + 1)) decimal_ranges.

(** [s] after the prefix [p], when [s] starts with [p]. *)
Fixpoint strip_prefix (p s : string) : option string :=
  match p, s with
  | EmptyString, _ => Some s
  | String a p', String b s' =>
      if Ascii.eqb a b then strip_prefix p' s' else None
  | String _ _, EmptyString => None
  end.

(** [s.startswith(p)]. *)
Definition starts_with (p s : string) : bool :=
  match strip_prefix p s with
  | Some _ => true
  | None => false
  end.

(** Whether [s] starts with a decimal digit. *)
Definition starts_decimal (s : string) : bool :=
  existsb (fun cp => starts_with (utf8 cp) s) decimal_codes.

(** Whether the character [c] occurs in [s]. *)
Fixpoint mem_char (c : ascii) (s : string) : bool :=
  match s with
  | EmptyString => false
  | String a s' => Ascii.eqb a c || mem_char c s'
  end.

End Str.

(* ===================================================================== *)
(** ** The parsed page *)
(* ===================================================================== *)

Module Soup.

(** A page element: a text string or a tag.  The [class] attribute is
    kept apart from the other attributes, as BeautifulSoup splits it
    into a list. *)
#[warnings="-register-all"] Inductive node : Type :=
| NavigableString (s : string)
| Tag (name : string) (class : list string)
      (attrs : list (string * string)) (contents : list node).

(** A tag as the script holds it: the node together with its chain of
    parents, nearest first. *)
Definition handle : Type := list node * node.

Definition has_name (t : string) (n : node) : bool :=
  match n with
  | Tag name _ _ _ => String.eqb name t
  | NavigableString _ => false
  end.

(** [div.get("class", [])]. *)
Definition classes (n : node) : list string :=
  match n with
  | Tag _ cls _ _ => cls
  | NavigableString _ => []
  end.

Definition has_class (c : string) (n : node) : bool :=
  existsb (String.eqb c) (classes n).

Definition get_attr (a : string) (n : node) : option string :=
  match n with
  | Tag _ _ attrs _ =>
      snd <$> List.find (fun kv => String.eqb (fst kv) a) attrs
  | NavigableString _ => None
  end.

Definition has_attr (a : string) (n : node) : bool :=
  match get_attr a n with Some _ => true | None => false end.

Definition attr_is (a v : string) (n : node) : bool :=
  match get_attr a n with Some v' => String.eqb v' v | None => false end.

(** The tags at and below [n], in document order, each with its parent
    chain. *)
Fixpoint walk (parents : list node) (n : node) : list handle :=
  match n with
  | NavigableString _ => []
  | Tag _ _ _ contents =>
      (parents, n) :: flat_map (walk (n :: parents)) contents
  end.

(** The tags strictly below the tag [h]. *)
Definition descendants (h : handle) : list handle :=
  match h.2 with
  | NavigableString _ => []
  | Tag _ _ _ contents => flat_map (walk (h.2 :: h.1)) contents
  end.

(** [soup.select(sel)] on the document. *)
Definition select (sel : node -> bool) (soup : list node) : list handle :=
  List.filter (fun h => sel h.2) (flat_map (walk []) soup).

(** [tag.select(sel)] below a tag. *)
Definition select_in (sel : node -> bool) (h : handle) : list handle :=
  List.filter (fun h' => sel h'.2) (descendants h).

(** [tag.select_one(sel)]. *)
Definition select_one (sel : node -> bool) (h : handle) : option handle :=
  head (select_in sel h).

(** The parent chain of [h] as handles, nearest first. *)
Fixpoint parent_handles (parents : list node) : list handle :=
  match parents with
  | [] => []
  | p :: rest => (rest, p) :: parent_handles rest
  end.

(** [tag.find_parent(name, class_=c)]. *)
Definition find_parent (name c : string) (h : handle) : option handle :=
  List.find (fun p => has_name name p.2 && has_class c p.2)
            (parent_handles h.1).

(** The text strings at and below a node, in document order. *)
Fixpoint strings (n : node) : list string :=
  match n with
  | NavigableString s => [s]
  | Tag _ _ _ contents => flat_map strings contents
  end.

(** [tag.get_text(strip=True)]: every string stripped, the empty ones
    dropped, the rest concatenated. *)
Definition get_text_strip (h : handle) : string :=
  Str.join ""
    (List.filter (fun s => negb (String.eqb s ""))
                 (map Str.strip (strings h.2))).

End Soup.

(* ===================================================================== *)
(** ** The availability detector: the pure part of [check_event_tickets] *)
(* ===================================================================== *)

Module Detector.
Import Soup.

Inductive method : Type := M_select | M_active | M_button.

(** One entry of [available]. *)
Record listing : Type := Listing {
  date : string;
  venue : string;
  tickets : list string;
  how : method
}.

Definition unknown : string := "不明".
Definition purchase_phrase : string := "購入手続き".

(** [el.get_text(strip=True) if el else "不明"]. *)
Definition text_or_unknown (el : option handle) : string :=
  match el with
  | Some h => get_text_strip h
  | None => unknown
  end.

(** Body of the loop over [soup.select(".ticket-select")]: nothing when
    the control has no enclosing [div.perform-list]. *)
Definition select_entry (sel : handle) : list listing :=
  match find_parent "div" "perform-list" sel with
  | None => []
  | Some perform_div =>
      let date_el := select_one (has_class "lead") perform_div in
      let venue_el := select_one (has_name "p") perform_div in
      let options :=
        select_in (fun n => has_name "option" n && has_attr "data-ticket-no" n)
                  sel in
      [ {| date := text_or_unknown date_el;
           venue := text_or_unknown venue_el;
           tickets := map get_text_strip options;
           how := M_select |} ]
  end.

Definition strategy1 (soup : list node) : list listing :=
  flat_map select_entry (select (has_class "ticket-select") soup).

(** Body of the loop over [soup.select(".perform-list")]. *)
Definition active_entry (div : handle) : list listing :=
  if negb (existsb (String.eqb "text-muted") (classes div.2)) then
    [ {| date := text_or_unknown (select_one (has_class "lead") div);
         venue := text_or_unknown (select_one (has_name "p") div);
         tickets := [];
         how := M_active |} ]
  else [].

Definition strategy2 (soup : list node) : list listing :=
  flat_map active_entry (select (has_class "perform-list") soup).

(** The selector ["button, input[type=submit], a.btn"]. *)
Definition clickable (n : node) : bool :=
  has_name "button" n
  || (has_name "input" n && attr_is "type" "submit" n)
  || (has_name "a" n && has_class "btn" n).

Definition button_listing : listing :=
  {| date := unknown; venue := unknown; tickets := []; how := M_button |}.

(** Body of the loop over the clickable elements. *)
Definition button_entry (btn : handle) : list listing :=
  if Str.contains purchase_phrase (get_text_strip btn)
  then [button_listing] else [].

Definition strategy3 (soup : list node) : list listing :=
  flat_map button_entry (select clickable soup).

Definition is_empty {A} (l : list A) : bool :=
  match l with [] => true | _ => false end.

(** [available] at the [return] of [check_event_tickets]. *)
Definition detect (soup : list node) : list listing :=
  let available := [] in
  let available := available ++ strategy1 soup in
  let available :=
    if is_empty available then available ++ strategy2 soup else available in
  let available :=
    if is_empty available then available ++ strategy3 soup else available in
  available.

End Detector.

(* ===================================================================== *)
(** ** The listing extractor: the data of [get_event_urls] *)
(* ===================================================================== *)

Module Extractor.

Definition BASE_URL : string := "https://relief-ticket.jp".

Definition ARTIST_IDS : list (string * Z) :=
  [ ("Travis Japan", 38);
    ("SixTONES", 40);
    ("King & Prince", 41);
    ("中島健人", 42);
    ("ジュニア", 15) ].

(** [ARTIST_IDS.get(artist_name)]. *)
Definition ARTIST_IDS_get (artist_name : string) : option Z :=
  snd <$> List.find (fun kv => String.eqb (fst kv) artist_name) ARTIST_IDS.

(** The value [artist_id] when [not artist_id] is false: [None] and [0]
    are both falsy. *)
Definition resolve (artist_name : string) : option Z :=
  match ARTIST_IDS_get artist_name with
  | Some artist_id => if artist_id =? 0 then None else Some artist_id
  | None => None
  end.

(** An [a] element of the rendered page: [get_attribute("href")] and
    [inner_text()]. *)
Record link : Type := Link {
  href : option string;
  inner_text : string
}.

(** An event descriptor, the dict appended to [events]. *)
Record event : Type := Event {
  name : string;
  url : string;
  path : string
}.

(** [re.match(rf"/events/artist/{artist_id}/\d+", href)]: the pattern
    is anchored at the start only, and one digit is enough. *)
Definition event_href (artist_id : Z) (h : string) : bool :=
  match Str.strip_prefix ("/events/artist/" +:+ Str.of_int artist_id +:+ "/") h with
  | Some rest => Str.starts_decimal rest
  | None => false
  end.

(** [link.get_attribute("href") or ""]. *)
Definition href_or_empty (l : link) : string :=
  match href l with
  | Some h => h
  | None => ""
  end.

(** The dict built for a link that passed the test. *)
Definition describe (l : link) : event :=
  {| name := Str.first_line (Str.strip (inner_text l));
     url := BASE_URL +:+ href_or_empty l;
     path := href_or_empty l |}.

End Extractor.

(* ===================================================================== *)
(** ** The notified mapping *)
(* ===================================================================== *)

Module Store.

(** The dict kept in [state.json]: ["notified"] and, once saved,
    ["last_check"]. *)
Record state : Type := State {
  notified : gmap string Z;
  last_check : option Z
}.

(** [f"{event['path']}|{t['date']}|{t['venue']}"]. *)
Definition dedup_key (path date venue : string) : string :=
  path +:+ "|" +:+ date +:+ "|" +:+ venue.

(** One second, in the unit of the timestamps. *)
Definition second : Z := 1000000.

(** [datetime.now().timestamp() - 30 * 86400]. *)
Definition cutoff (now : Z) : Z := now - 30 * 86400 * second.

(** The dict comprehension that rebuilds [state["notified"]]: an entry
    stays when its timestamp is greater than the cutoff.  (The script
    compares the two as floats, see the conventions.) *)
Definition prune (now : Z) (m : gmap string Z) : gmap string Z :=
  filter (fun kv => cutoff now < kv.2) m.

(** [if key not in notified: notified[key] = now], on the mapping. *)
Definition mark_notified (key : string) (now : Z) (m : gmap string Z)
  : gmap string Z :=
  match m !! key with
  | Some _ => m
  | None => <[key := now]> m
  end.

End Store.

(* ===================================================================== *)
(** ** Effects: exceptions, output, the clock, the browser, the state file *)
(* ===================================================================== *)

Module Eff.

(** What a Python call can raise, by the handler that catches it:
    [except Exception] takes [Exception]; [except KeyboardInterrupt]
    takes [KeyboardInterrupt]; the remaining [BaseException]s
    ([SystemExit], [CancelledError], ...) pass both. *)
Inductive exn : Type :=
| Exception (msg : string)
| KeyboardInterrupt
| BaseException (msg : string).

Inductive outcome (A : Type) : Type :=
| Ok (a : A)
| Raise (e : exn).
Arguments Ok {A} a.
Arguments Raise {A} e.

(** What the process emits.  [Log] carries the argument of [log]; the
    time of day [log] puts before it is not kept, and the reading of
    the clock [log] takes for it is not counted among the readings of
    [world].  [SendLine] and [NotifyDesktop] stand for the calls of
    [send_line] and [notify_desktop] in [run_check], lines of their own
    included; the calls are taken to return ([send_line] itself is
    [Script.send_line] below, which lets through what is not an
    [Exception]). *)
Inductive output : Type :=
| Log (msg : string)
| PrintExc (e : exn)
| SendLine (message : string)
| NotifyDesktop (title message : string)
| BrowserClose.

(** A rendered page: its [a] elements and its parsed content. *)
Record page : Type := Page {
  anchors : list Extractor.link;
  content : list Soup.node
}.

(** The environment.  [goto n u] is the result of the [n]-th navigation
    when it asks for [u] (navigation, settle wait and reading the page
    taken together); [clock n] is the [n]-th reading of
    [datetime.now()] by [run_check] and [save_state], as a timestamp;
    [sleep n] is the result of the [n]-th [asyncio.sleep]. *)
Record world : Type := World {
  goto : nat -> string -> outcome page;
  clock : nat -> Z;
  sleep : nat -> outcome unit
}.

(** The machine state: how many navigations, clock readings and sleeps
    happened, what was emitted, and the content of the state file. *)
Record St : Type := MkSt {
  nav : nat;
  clk : nat;
  naps : nat;
  out : list output;
  file : option Store.state
}.

Definition M (A : Type) : Type := St -> outcome A * St.

Definition ret {A} (a : A) : M A := fun s => (Ok a, s).

Definition bind {A B} (m : M A) (k : A -> M B) : M B :=
  fun s =>
    match m s with
    | (Ok a, s') => k a s'
    | (Raise e, s') => (Raise e, s')
    end.

Definition raise {A} (e : exn) : M A := fun s => (Raise e, s).

(** [try: m  except Exception as e: handler(e)]. *)
Definition try_except {A} (m : M A) (handler : string -> M A) : M A :=
  fun s =>
    match m s with
    | (Raise (Exception msg), s') => handler msg s'
    | r => r
    end.

(** [try: m  except KeyboardInterrupt: handler]. *)
Definition except_interrupt {A} (m : M A) (handler : M A) : M A :=
  fun s =>
    match m s with
    | (Raise KeyboardInterrupt, s') => handler s'
    | r => r
    end.

(** [try: m  finally: cleanup]. *)
Definition try_finally {A} (m : M A) (cleanup : M unit) : M A :=
  fun s =>
    match m s with
    | (r, s') =>
        match cleanup s' with
        | (Ok _, s'') => (r, s'')
        | (Raise e, s'') => (Raise e, s'')
        end
    end.

Definition emit (o : output) : M unit :=
  fun s => (Ok tt, {| nav := nav s; clk := clk s; naps := naps s;
                      out := out s ++ [o]; file := file s |}).

Definition log (msg : string) : M unit := emit (Log msg).

(** [datetime.now()]. *)
Definition now (w : world) : M Z :=
  fun s => (Ok (clock w (clk s)),
            {| nav := nav s; clk := S (clk s); naps := naps s;
               out := out s; file := file s |}).

(** [await page.goto(url, ...)] and the reads that follow it. *)
Definition navigate (w : world) (u : string) : M page :=
  fun s => (goto w (nav s) u,
            {| nav := S (nav s); clk := clk s; naps := naps s;
               out := out s; file := file s |}).

(** [await asyncio.sleep(CHECK_INTERVAL)]. *)
Definition asleep (w : world) : M unit :=
  fun s => (sleep w (naps s),
            {| nav := nav s; clk := clk s; naps := S (naps s);
               out := out s; file := file s |}).

Definition read_file : M (option Store.state) :=
  fun s => (Ok (file s), s).

Definition write_file (st : Store.state) : M unit :=
  fun s => (Ok tt, {| nav := nav s; clk := clk s; naps := naps s;
                      out := out s; file := Some st |}).

(** A [for] loop that threads the variables it updates. *)
Fixpoint for_each {A B} (body : B -> A -> M B) (l : list A) (acc : B) : M B :=
  match l with
  | [] => ret acc
  | x :: l' => bind (body acc x) (for_each body l')
  end.

End Eff.

Notation "x <- c1 ;; c2" := (Eff.bind c1 (fun x => c2))
(at level 100, c1 at next level, right associativity).
Notation "c1 ;; c2" := (Eff.bind c1 (fun _ => c2))
(at level 100, right associativity).

(* ===================================================================== *)
(** ** The script *)
(* ===================================================================== *)

Module Monitor.
Import Eff Extractor Detector Store.

(** What the script reads from the environment at start-up. *)
Record config : Type := Config {
  ARTISTS : list string;
  CHECK_INTERVAL : Z
}.

(** [load_state]. *)
Definition load_state : M state :=
  f <- read_file ;;
  match f with
  | Some st => ret st
  | None => ret {| notified := ∅; last_check := None |}
  end.

(** [save_state]. *)
Definition save_state (w : world) (st : state) : M unit :=
  t <- now w ;;
  write_file {| notified := notified st; last_check := Some t |}.

Definition artist_url (artist_id : Z) : string :=
  BASE_URL +:+ "/events/artist/" +:+ Str.of_int artist_id.

(** Body of [for link in links], on the pair ([events], [seen]). *)
Definition scan_link (artist_id : Z) (acc : list event * gset string)
    (l : link) : M (list event * gset string) :=
  let '(events, seen) := acc in
  let h := href_or_empty l in
  if event_href artist_id h && negb (bool_decide (h ∈ seen)) then
    let seen := {[ h ]} ∪ seen in
    let events := events ++ [describe l] in
    log ("    イベント: " +:+ name (describe l)) ;;
    ret (events, seen)
  else ret (events, seen).

(** [get_event_urls].  The debug capture is left out ([DEBUG] is off
    unless the environment turns it on). *)
Definition get_event_urls (w : world) (artist_name : string)
  : M (list event) :=
  match resolve artist_name with
  | None =>
      log ("  アーティストID不明: " +:+ artist_name) ;;
      ret []
  | Some artist_id =>
      let u := artist_url artist_id in
      log ("  イベント一覧: " +:+ u) ;;
      pg <- navigate w u ;;
      r <- for_each (scan_link artist_id) (anchors pg) ([], ∅) ;;
      ret r.1
  end.

(** [check_event_tickets]. *)
Definition check_event_tickets (w : world) (ev : event)
  : M (list listing) :=
  log ("  チケット確認: " +:+ name ev) ;;
  pg <- navigate w (url ev) ;;
  ret (detect (content pg)).

(** An entry of [new_findings]: the three event fields and the fields
    of the listing. *)
Record finding : Type := Finding {
  artist : string;
  event_name : string;
  event_url : string;
  f_date : string;
  f_venue : string;
  f_tickets : list string;
  f_method : method
}.

Definition mk_finding (a : string) (ev : event) (t : listing) : finding :=
  {| artist := a; event_name := name ev; event_url := url ev;
     f_date := date t; f_venue := venue t; f_tickets := tickets t;
     f_method := how t |}.

(** The innermost loop body of [run_check]: what is done with one
    listing of one event.  The variables it updates are the mapping
    [state["notified"]] and [new_findings]. *)
Definition check_new (w : world) (a : string) (ev : event)
    (acc : gmap string Z * list finding) (t : listing)
  : M (gmap string Z * list finding) :=
  let '(notified, new_findings) := acc in
  let key := dedup_key (path ev) (date t) (venue t) in
  if bool_decide (key ∉ dom notified) then
    stamp <- now w ;;
    ret (<[key := stamp]> notified, new_findings ++ [mk_finding a ev t])
  else ret (notified, new_findings).

Section Poll.
(** The two outer loops of [run_check] with the innermost body left
    open, so that the same traversal can also just record what it
    sees. *)
Context {Acc : Type}.
Variable w : world.
Variable body : string -> event -> Acc -> listing -> M Acc.

(** Body of [for event in events]. *)
Definition per_event (a : string) (acc : Acc) (ev : event) : M Acc :=
  r <- try_except
         (tickets <- check_event_tickets w ev ;; ret (Some tickets))
         (fun msg =>
            log ("  エラー (" +:+ name ev +:+ "): " +:+ msg) ;;
            ret None) ;;
  match r with
  | None => ret acc
  | Some tickets =>
      if is_empty tickets then
        log "    在庫なし" ;; ret acc
      else for_each (body a ev) tickets acc
  end.

(** Body of [for artist in ARTISTS]. *)
Definition per_artist (acc : Acc) (a : string) : M Acc :=
  log ("--- " +:+ a +:+ " ---") ;;
  events <- get_event_urls w a ;;
  if is_empty events then
    log "  イベントなし" ;; ret acc
  else for_each (per_event a) events acc.

Definition poll (artists : list string) (acc : Acc) : M Acc :=
  for_each per_artist artists acc.
End Poll.

(** The message of one finding. *)
Definition message (f : finding) : string :=
  let ticket_info :=
    if is_empty (f_tickets f) then ""
    else "(" +:+ Str.join ", " (f_tickets f) +:+ ")" in
  "🎫 リセールチケット出品!" +:+ Str.nl +:+ Str.nl
  +:+ "【" +:+ artist f +:+ "】" +:+ Str.nl
  +:+ event_name f +:+ Str.nl
  +:+ "📅 " +:+ f_date f +:+ Str.nl
  +:+ "📍 " +:+ f_venue f +:+ Str.nl
  +:+ "🎟 " +:+ ticket_info +:+ Str.nl +:+ Str.nl
  +:+ "▶ 購入ページ:" +:+ Str.nl +:+ event_url f.

(** Body of [for f in new_findings]: the two delivery calls, taken to
    return. *)
Definition deliver (_ : unit) (f : finding) : M unit :=
  emit (SendLine (message f)) ;;
  emit (NotifyDesktop "RELIEF Ticket"
          (artist f +:+ " " +:+ f_date f +:+ " " +:+ f_venue f)).

(** [run_check]. *)
Definition run_check (cfg : config) (w : world) : M (list finding) :=
  st <- load_state ;;
  r <- try_finally
         (poll w (check_new w) (ARTISTS cfg) (notified st, []))
         (emit BrowserClose) ;;
  let '(notified, new_findings) := r in
  for_each deliver new_findings tt ;;
  (if is_empty new_findings then log "変更なし"
   else log ("=== " +:+ Str.of_int (Z.of_nat (length new_findings))
             +:+ "件の新規リセール検出! ===")) ;;
  t <- now w ;;
  let notified := prune t notified in
  save_state w {| notified := notified; last_check := last_check st |} ;;
  ret new_findings.

(** How an iteration of [while True] ends. *)
Inductive control : Type := Continue | Break.

(** One iteration of the loop of [main]. *)
Definition iteration (cfg : config) (w : world) : M control :=
  c <- except_interrupt
         (try_except
            (run_check cfg w ;; ret Continue)
            (fun msg =>
               log ("エラー: " +:+ msg) ;;
               emit (PrintExc (Exception msg)) ;;
               ret Continue))
         (ret Break) ;;
  match c with
  | Break => ret Break
  | Continue =>
      log ("次回チェック: " +:+ Str.of_int (CHECK_INTERVAL cfg) +:+ "秒後") ;;
      except_interrupt (asleep w ;; ret Continue) (ret Break)
  end.

(** Whether the loop is still going when the fuel is spent. *)
Inductive loop_state : Type := Running | Stopped.

(** [while True], for at most [fuel] iterations. *)
Fixpoint main_loop (cfg : config) (w : world) (fuel : nat) : M loop_state :=
  match fuel with
  | O => ret Running
  | S fuel' =>
      c <- iteration cfg w ;;
      match c with
      | Break => ret Stopped
      | Continue => main_loop cfg w fuel'
      end
  end.

(** The continuous branch of [main], after the banner. *)
Definition main_continuous (cfg : config) (w : world) (fuel : nat)
  : M loop_state :=
  r <- main_loop cfg w fuel ;;
  match r with
  | Stopped => log "監視終了" ;; ret Stopped
  | Running => ret Running
  end.

End Monitor.

(* ===================================================================== *)
(** ** Properties of the string helpers *)
(* ===================================================================== *)

Section StrFacts.

Example strip_both_ends :
  Str.strip (" " +:+ Str.nl +:+ " a b " +:+ Str.nl) = "a b".
Proof. reflexivity. Qed.

Example first_line_stops_at_line_feed :
  Str.first_line ("Winter Tour" +:+ Str.nl +:+ "Tokyo") = "Winter Tour".
Proof. reflexivity. Qed.

Example contains_inside :
  Str.contains "購入手続き" "今すぐ購入手続きへ" = true
  /\ Str.contains "購入手続き" "購入履歴" = false.
Proof. split; reflexivity. Qed.

Example event_href_examples :
  Extractor.event_href 38 "/events/artist/38/101" = true
  /\ Extractor.event_href 38 "/events/artist/38/101?from=top" = true
  /\ Extractor.event_href 38 "/events/artist/38/" = false
  /\ Extractor.event_href 38 "/events/artist/380/1" = false
  /\ Extractor.event_href 38 "https://relief-ticket.jp/events/artist/38/1"
     = false.
Proof. repeat split; vm_compute; reflexivity. Qed.

Lemma strip_prefix_app (p s : string) : Str.strip_prefix p (p +:+ s) = Some s.
Proof.
  induction p as [|a p IH]; simpl; [reflexivity|].
  now rewrite Ascii.eqb_refl.
Qed.

Lemma strip_prefix_append (p h t r : string) :
  Str.strip_prefix p h = Some r ->
  Str.strip_prefix p (h +:+ t) = Some (r +:+ t).
Proof.
  revert h. induction p as [|a p IH]; intros h; simpl.
  - intros E. now inversion E.
  - destruct h as [|b h]; simpl; [discriminate|].
    destruct (Ascii.eqb a b); [apply IH | discriminate].
Qed.

Lemma strip_prefix_Some (p h r : string) :
  Str.strip_prefix p h = Some r -> h = p +:+ r.
Proof.
  revert h. induction p as [|a p IH]; intros h; simpl.
  - intros E. now inversion E.
  - destruct h as [|b h]; [discriminate|].
    destruct (Ascii.eqb a b) eqn:Eab; [|discriminate].
    apply Ascii.eqb_eq in Eab as ->. intros E. now rewrite (IH h E).
Qed.

Lemma append_assoc (a b c : string) : (a +:+ b) +:+ c = a +:+ (b +:+ c).
Proof.
  induction a as [|x a IH]; [reflexivity|].
  change (String x ((a +:+ b) +:+ c) = String x (a +:+ (b +:+ c))).
  now f_equal.
Qed.

Lemma append_inj_l (a b c : string) : a +:+ b = a +:+ c -> b = c.
Proof.
  induction a as [|x a IH]; simpl; [auto|]. intros E. inversion E. auto.
Qed.

Lemma starts_with_iff (p s : string) :
  Str.starts_with p s = true <-> exists r, s = p +:+ r.
Proof.
  unfold Str.starts_with. split.
  - destruct (Str.strip_prefix p s) as [r|] eqn:E; [|discriminate].
    intros _. exists r. now apply strip_prefix_Some.
  - intros [r ->]. now rewrite strip_prefix_app.
Qed.

(** [s] starts with a decimal digit when it is the encoding of a code
    point of the table followed by anything. *)
Lemma starts_decimal_iff (s : string) :
  Str.starts_decimal s = true
  <-> exists cp rest, In cp Str.decimal_codes /\ s = Str.utf8 cp +:+ rest.
Proof.
  unfold Str.starts_decimal. rewrite existsb_exists. split.
  - intros (cp & Hin & Hp). apply starts_with_iff in Hp as [rest E].
    now exists cp, rest.
  - intros (cp & rest & Hin & E). exists cp. split; [exact Hin|].
    apply starts_with_iff. now exists rest.
Qed.

(** What follows a leading digit does not matter. *)
Lemma starts_decimal_append (r t : string) :
  Str.starts_decimal r = true -> Str.starts_decimal (r +:+ t) = true.
Proof.
  rewrite !starts_decimal_iff. intros (cp & rest & Hin & ->).
  exists cp, (rest +:+ t). split; [exact Hin|]. apply append_assoc.
Qed.

(** The characters [str.isspace] accepts, encoded. *)
Definition space_chars : list string := map Str.utf8 Str.space_codes.

(** White space from end to end. *)
Inductive white : string -> Prop :=
| white_nil : white ""
| white_cons (sp s : string) :
    In sp space_chars -> white s -> white (sp +:+ s).

Definition starts_with_space (s : string) : Prop :=
  exists sp rest, In sp space_chars /\ s = sp +:+ rest.

Definition ends_with_space (s : string) : Prop :=
  exists sp rest, In sp space_chars /\ s = rest +:+ sp.

(** [r] is [text] without the white space at its two ends. *)
Definition is_strip (r text : string) : Prop :=
  (exists pre post, text = pre +:+ r +:+ post /\ white pre /\ white post)
  /\ ~ starts_with_space r /\ ~ ends_with_space r.

Lemma chr_byte (c : ascii) : Str.chr (Str.byte c) = c.
Proof.
  unfold Str.chr, Str.byte. rewrite N2Z.id. apply ascii_N_embedding.
Qed.

Lemma byte_eqb (c : ascii) (z : Z) :
  (Str.byte c =? z) = true -> c = Str.chr z.
Proof. intros H. apply Z.eqb_eq in H. now rewrite <- H, chr_byte. Qed.

Ltac pick_space :=
  vm_compute; repeat (first [left; reflexivity | right]).

Lemma is_space_char (c : ascii) :
  Str.is_space c = true -> In (String c "") space_chars.
Proof.
  destruct c as [[] [] [] [] [] [] [] []]; intros H;
    try discriminate H; pick_space.
Qed.

Lemma is_space2_char (c1 c2 : ascii) :
  Str.is_space2 c1 c2 = true -> In (String c1 (String c2 "")) space_chars.
Proof.
  unfold Str.is_space2. intros H.
  apply andb_true_iff in H as [H1 H2]. apply byte_eqb in H1 as ->.
  apply orb_true_iff in H2 as [H2 | H2]; apply byte_eqb in H2 as ->;
    pick_space.
Qed.

Lemma is_space3_char (c1 c2 c3 : ascii) :
  Str.is_space3 c1 c2 c3 = true ->
  In (String c1 (String c2 (String c3 ""))) space_chars.
Proof.
  unfold Str.is_space3. intros H.
  repeat match goal with
         | H : _ || _ = true |- _ => apply orb_true_iff in H as [H | H]
         | H : _ && _ = true |- _ =>
             let H' := fresh in apply andb_true_iff in H as [H H']
         end;
    repeat match goal with
           | H : (Str.byte _ =? _) = true |- _ => apply byte_eqb in H as ->
           end;
    try solve [pick_space].
  apply Z.leb_le in H0, H1.
  assert (Hc : In (Str.byte c3)
                 [128; 129; 130; 131; 132; 133; 134; 135; 136; 137; 138])
    by (simpl; lia).
  rewrite <- (chr_byte c3).
  simpl in Hc. repeat (destruct Hc as [<- | Hc]; [pick_space|]).
  destruct Hc.
Qed.

Lemma space_chars_nonempty (sp : string) : In sp space_chars -> sp <> "".
Proof.
  intros Hin. vm_compute in Hin.
  repeat (destruct Hin as [<- | Hin]; [discriminate|]). destruct Hin.
Qed.

Lemma lstrip_space (sp t : string) :
  In sp space_chars -> Str.lstrip (sp +:+ t) = Str.lstrip t.
Proof.
  intros Hin. vm_compute in Hin.
  repeat (destruct Hin as [<- | Hin]; [reflexivity|]). destruct Hin.
Qed.

(** Whether [s] starts with white space, read on its first bytes. *)
Definition leading_space (s : string) : bool :=
  match s with
  | String c1 s1 =>
      Str.is_space c1
      || match s1 with
         | String c2 s2 =>
             Str.is_space2 c1 c2
             || match s2 with
                | String c3 _ => Str.is_space3 c1 c2 c3
                | EmptyString => false
                end
         | EmptyString => false
         end
  | EmptyString => false
  end.

Lemma leading_space_of (sp rest : string) :
  In sp space_chars -> leading_space (sp +:+ rest) = true.
Proof.
  intros Hin. vm_compute in Hin.
  repeat (destruct Hin as [<- | Hin]; [reflexivity|]). destruct Hin.
Qed.

Lemma no_leading_space (s : string) :
  leading_space s = false -> ~ starts_with_space s.
Proof.
  intros H (sp & rest & Hin & ->).
  now rewrite (leading_space_of sp rest Hin) in H.
Qed.

Lemma append_cons (c : ascii) (a b : string) :
  String c a +:+ b = String c (a +:+ b).
Proof. reflexivity. Qed.

Lemma append_empty_r (s : string) : s +:+ "" = s.
Proof.
  induction s as [|c s IH]; [reflexivity|].
  change (String c (s +:+ "") = String c s). now f_equal.
Qed.

Lemma white_app (a b : string) : white a -> white b -> white (a +:+ b).
Proof.
  induction 1 as [|sp s Hin Hs IH]; intros Hb; [exact Hb|].
  rewrite append_assoc. constructor; [exact Hin | now apply IH].
Qed.

Lemma white_one (sp : string) : In sp space_chars -> white sp.
Proof.
  intros Hin. rewrite <- (append_empty_r sp).
  constructor; [exact Hin | constructor].
Qed.

(** [lstrip] takes a white prefix off and leaves a string that does not
    start with white space. *)
Lemma lstrip_spec (s : string) :
  (exists pre, s = pre +:+ Str.lstrip s /\ white pre)
  /\ leading_space (Str.lstrip s) = false.
Proof.
  assert (H : forall n s, (String.length s <= n)%nat ->
            (exists pre, s = pre +:+ Str.lstrip s /\ white pre)
            /\ leading_space (Str.lstrip s) = false).
  { clear s. induction n as [|n IH]; intros s Hn.
    - destruct s; [|simpl in Hn; lia].
      split; [exists ""; split; [reflexivity | constructor] | reflexivity].
    - destruct s as [|c1 s1].
      { split; [exists ""; split; [reflexivity | constructor] | reflexivity]. }
      simpl in Hn. cbn [Str.lstrip].
      destruct (Str.is_space c1) eqn:E1.
      { destruct (IH s1 ltac:(lia)) as [(pre & Hp & Hw) Hl].
        split; [|exact Hl]. exists (String c1 pre). split.
        - rewrite !append_cons. now rewrite <- Hp.
        - apply (white_cons (String c1 "") pre); [|exact Hw].
          now apply is_space_char. }
      destruct s1 as [|c2 s2].
      { split; [exists ""; split; [reflexivity | constructor]|].
        simpl. now rewrite E1. }
      simpl in Hn. destruct (Str.is_space2 c1 c2) eqn:E2.
      { destruct (IH s2 ltac:(lia)) as [(pre & Hp & Hw) Hl].
        split; [|exact Hl]. exists (String c1 (String c2 pre)). split.
        - rewrite !append_cons. now rewrite <- Hp.
        - apply (white_cons (String c1 (String c2 "")) pre); [|exact Hw].
          now apply is_space2_char. }
      destruct s2 as [|c3 s3].
      { split; [exists ""; split; [reflexivity | constructor]|].
        simpl. now rewrite E1, E2. }
      simpl in Hn. destruct (Str.is_space3 c1 c2 c3) eqn:E3.
      { destruct (IH s3 ltac:(lia)) as [(pre & Hp & Hw) Hl].
        split; [|exact Hl].
        exists (String c1 (String c2 (String c3 pre))). split.
        - rewrite !append_cons. now rewrite <- Hp.
        - apply (white_cons (String c1 (String c2 (String c3 ""))) pre);
            [|exact Hw].
          now apply is_space3_char. }
      split; [exists ""; split; [reflexivity | constructor]|].
      simpl. now rewrite E1, E2, E3. }
  apply (H (String.length s)). lia.
Qed.

Lemma white_blank (s : string) : white s -> Str.blank s = true.
Proof.
  unfold Str.blank. induction 1 as [|sp s Hin Hs IH]; [reflexivity|].
  now rewrite lstrip_space.
Qed.

Lemma blank_white (s : string) : Str.blank s = true -> white s.
Proof.
  unfold Str.blank. destruct (lstrip_spec s) as [(pre & Hp & Hw) _].
  destruct (Str.lstrip s); [|discriminate].
  intros _. rewrite Hp, append_empty_r. exact Hw.
Qed.

(** [rstrip] takes a white suffix off. *)
Lemma rstrip_suffix (s : string) :
  exists post, s = Str.rstrip s +:+ post /\ white post.
Proof.
  induction s as [|c s (post & Hp & Hw)].
  - exists "". split; [reflexivity | constructor].
  - cbn [Str.rstrip]. destruct (Str.blank (String c s)) eqn:E.
    + exists (String c s). split; [reflexivity | now apply blank_white].
    + exists post. split; [|exact Hw]. rewrite append_cons. now rewrite <- Hp.
Qed.

(** What [rstrip] leaves does not end with white space. *)
Lemma rstrip_tight (s : string) : ~ ends_with_space (Str.rstrip s).
Proof.
  intros (sp & rest & Hin & E). revert rest E.
  induction s as [|c s IH]; intros rest E.
  - simpl in E. destruct rest; [|discriminate E].
    simpl in E. now apply (space_chars_nonempty sp Hin).
  - cbn [Str.rstrip] in E. destruct (Str.blank (String c s)) eqn:Eb.
    + destruct rest; [|discriminate E].
      simpl in E. now apply (space_chars_nonempty sp Hin).
    + destruct rest as [|c' rest].
      * simpl in E. destruct (rstrip_suffix s) as (post & Hp & Hw).
        assert (Hs : white (String c s)).
        { rewrite Hp.
          change (white (String c (Str.rstrip s) +:+ post)).
          rewrite E. now apply white_cons. }
        apply white_blank in Hs. congruence.
      * simpl in E. inversion E. now apply (IH rest).
Qed.

(** [strip] against its description. *)
Lemma strip_spec (text : string) : is_strip (Str.strip text) text.
Proof.
  unfold Str.strip.
  destruct (lstrip_spec text) as [(pre & Hp & Hw) Hl].
  destruct (rstrip_suffix (Str.lstrip text)) as (post & Hq & Hv).
  split; [|split].
  - exists pre, post. split; [|now split]. now rewrite <- Hq.
  - intros (sp & rest & Hin & E).
    apply (no_leading_space _ Hl). exists sp, (rest +:+ post).
    split; [exact Hin|]. rewrite Hq at 1. rewrite E. apply append_assoc.
  - apply rstrip_tight.
Qed.
Example strip_unicode_space :
  Str.strip ("　 Winter Tour " +:+ Str.nl) = "Winter Tour"
  /\ Str.strip "　" = ""
  /\ Str.strip "冬　ツアー" = "冬　ツアー".
Proof. repeat split; reflexivity. Qed.

Example utf8_examples :
  Str.utf8 65 = "A" /\ Str.utf8 12288 = "　" /\ Str.utf8 65297 = "１"
  /\ Str.utf8 1635 = "٣" /\ Str.utf8 120783 = "𝟏".
Proof. repeat split; reflexivity. Qed.

Example starts_decimal_examples :
  Str.starts_decimal "101" = true
  /\ Str.starts_decimal "１０１" = true
  /\ Str.starts_decimal "٣" = true
  /\ Str.starts_decimal "𝟏" = true
  /\ Str.starts_decimal "x1" = false
  /\ Str.starts_decimal "一" = false
  /\ Str.starts_decimal "" = false.
Proof. repeat split; vm_compute; reflexivity. Qed.

Lemma mem_char_false_cons (c a : ascii) (s : string) :
  Str.mem_char c (String a s) = false -> a <> c /\ Str.mem_char c s = false.
Proof.
  simpl. intros H. apply orb_false_elim in H as [H1 H2].
  split; [|exact H2]. intros ->. now rewrite Ascii.eqb_refl in H1.
Qed.

(** A string is cut in one way only at the first occurrence of a
    character. *)
Lemma split_at_first (c : ascii) (a a' b b' : string) :
  Str.mem_char c a = false ->
  Str.mem_char c a' = false ->
  a +:+ String c b = a' +:+ String c b' ->
  a = a' /\ b = b'.
Proof.
  revert a'. induction a as [|x a IH]; intros [|y a'] Ha Ha' E; simpl in E.
  - now inversion E.
  - inversion E; subst. apply mem_char_false_cons in Ha' as [Hn _].
    now contradiction Hn.
  - inversion E; subst. apply mem_char_false_cons in Ha as [Hn _].
    now contradiction Hn.
  - inversion E; subst.
    apply mem_char_false_cons in Ha as [_ Ha].
    apply mem_char_false_cons in Ha' as [_ Ha'].
    destruct (IH a' Ha Ha' H1) as [-> ->]. now split.
Qed.

End StrFacts.

(* ===================================================================== *)
(** ** The dedup key *)
(* ===================================================================== *)

Section DedupKey.
Import Store.

Definition bar : ascii := "|"%char.

Lemma dedup_key_unfold (p d v : string) :
  dedup_key p d v = p +:+ String bar (d +:+ String bar v).
Proof. reflexivity. Qed.

(** C5, as stated, fails: two different (path, date, venue) triples
    whose date and venue move the separator collide on one key. *)
Lemma dedup_key_collision :
  ~ (forall p d v p' d' v' : string,
       dedup_key p d v = dedup_key p' d' v' <-> (p, d, v) = (p', d', v')).
Proof.
  intros H.
  destruct (H "/events/artist/38/101" "12/25|Hall" "A"
              "/events/artist/38/101" "12/25" "Hall|A") as [H1 _].
  specialize (H1 eq_refl). discriminate H1.
Qed.

(** C5 (amended): equal triples give equal keys, and when neither path
    nor date contains the separator ["|"], equal keys come from equal
    triples only. *)
Theorem dedup_key_injective (p d v p' d' v' : string) :
  Str.mem_char bar p = false -> Str.mem_char bar d = false ->
  Str.mem_char bar p' = false -> Str.mem_char bar d' = false ->
  (dedup_key p d v = dedup_key p' d' v' <-> (p, d, v) = (p', d', v')).
Proof.
  intros Hp Hd Hp' Hd'. split.
  - rewrite !dedup_key_unfold. intros E.
    destruct (split_at_first bar p p' _ _ Hp Hp' E) as [-> E'].
    destruct (split_at_first bar d d' _ _ Hd Hd' E') as [-> ->].
    reflexivity.
  - intros E. inversion E. reflexivity.
Qed.

Lemma dedup_key_injective_witness :
  dedup_key "/events/artist/38/101" "12/25" "Hall A"
  = dedup_key "/events/artist/38/101" "12/25" "Hall A"
  <-> ("/events/artist/38/101", "12/25", "Hall A")
      = ("/events/artist/38/101", "12/25", "Hall A").
Proof.
  apply (dedup_key_injective "/events/artist/38/101" "12/25" "Hall A"
           "/events/artist/38/101" "12/25" "Hall A"); reflexivity.
Defined.

End DedupKey.

(* ===================================================================== *)
(** ** Pruning *)
(* ===================================================================== *)

Section Pruning.
Import Store.

Lemma prune_lookup (now : Z) (m : gmap string Z) (k : string) :
  prune now m !! k
  = match m !! k with
    | Some ts => if bool_decide (cutoff now < ts) then Some ts else None
    | None => None
    end.
Proof.
  unfold prune. destruct (m !! k) as [ts|] eqn:E.
  - case_bool_decide as Hc.
    + apply map_lookup_filter_Some. split; [exact E | exact Hc].
    + apply map_lookup_filter_None. right. intros x Hx.
      rewrite E in Hx. inversion Hx; subst. exact Hc.
  - apply map_lookup_filter_None. left. exact E.
Qed.

(** C4, as stated, fails: an entry whose age is exactly the retention
    window is not older than it, and is removed all the same.  Both
    timestamps are whole seconds (the clock at 2026-11-04 00:00:00 UTC
    and 30 days before), which floats hold exactly. *)
Lemma prune_boundary_removed :
  ~ (forall (now : Z) (m : gmap string Z) (k : string) (ts : Z),
       m !! k = Some ts ->
       (prune now m !! k = None <-> now - ts > 30 * 86400 * second)).
Proof.
  intros H.
  destruct (H (1793750400 * second)
              {[ "k" := 1791158400 * second ]} "k" (1791158400 * second))
    as [H1 _].
  - apply lookup_singleton_eq.
  - assert (E : prune (1793750400 * second)
                  {[ "k" := 1791158400 * second ]} !! "k" = None).
    { rewrite prune_lookup, lookup_singleton_eq. reflexivity. }
    specialize (H1 E). unfold second in H1. lia.
Qed.

(** C4 (amended): the pruning pass removes an entry whose timestamp is
    a second or more before the cutoff, now minus 30*86400 seconds,
    and keeps, with its timestamp, an entry whose timestamp is a second
    or more after it: an entry timestamped now - 30 days - 1 second is
    removed and one timestamped now - 30 days + 1 second is kept.  When
    both timestamps are whole seconds the entry is removed exactly when
    its age is 30*86400 seconds or more, the age of exactly 30*86400
    seconds included.  (Nothing is said of an entry within a second of
    the cutoff whose timestamp has a fraction: there the rounding of
    the float timestamps decides.) *)
Theorem prune_window (now : Z) (m : gmap string Z) (k : string) (ts : Z) :
  m !! k = Some ts ->
  (ts + 1 * second <= cutoff now -> prune now m !! k = None)
  /\ (cutoff now + 1 * second <= ts -> prune now m !! k = Some ts)
  /\ ((second | now) -> (second | ts) ->
      (prune now m !! k = None <-> 30 * 86400 * second <= now - ts))
  /\ prune now (<[k := now - 30 * 86400 * second - 1 * second]> m) !! k = None
  /\ prune now (<[k := now - 30 * 86400 * second + 1 * second]> m) !! k
     = Some (now - 30 * 86400 * second + 1 * second).
Proof.
  intros E. rewrite !prune_lookup, E, !lookup_insert_eq.
  unfold cutoff, second. repeat split.
  - intros H. case_bool_decide; [lia | reflexivity].
  - intros H. case_bool_decide; [reflexivity | lia].
  - case_bool_decide; [discriminate | lia].
  - intros H1. case_bool_decide; [lia | reflexivity].
  - case_bool_decide; [lia | reflexivity].
  - case_bool_decide; [reflexivity | lia].
Qed.

Lemma prune_window_witness :
  prune (1793750400 * second + 250000)
    {[ "k" := 1791158400 * second - 750000 ]} !! "k" = None
  /\ prune (1793750400 * second)
       {[ "k" := 1791158401 * second ]} !! "k"
     = Some (1791158401 * second)
  /\ (prune (1793750400 * second)
        {[ "k" := 1791158400 * second ]} !! "k" = None
      <-> 30 * 86400 * second
          <= 1793750400 * second - 1791158400 * second).
Proof.
  split; [|split].
  - apply (proj1 (prune_window (1793750400 * second + 250000)
                    {[ "k" := 1791158400 * second - 750000 ]} "k"
                    (1791158400 * second - 750000)
                    (lookup_singleton_eq _ _))).
    vm_compute. discriminate.
  - apply (proj1 (proj2 (prune_window (1793750400 * second)
                           {[ "k" := 1791158401 * second ]} "k"
                           (1791158401 * second)
                           (lookup_singleton_eq _ _)))).
    vm_compute. discriminate.
  - apply (proj1 (proj2 (proj2 (prune_window (1793750400 * second)
                                  {[ "k" := 1791158400 * second ]} "k"
                                  (1791158400 * second)
                                  (lookup_singleton_eq _ _))))).
    + exists 1793750400. reflexivity.
    + exists 1791158400. reflexivity.
Defined.

End Pruning.

(* ===================================================================== *)
(** ** The availability detector *)
(* ===================================================================== *)

Section DetectorFacts.
Import Soup Detector.

(** The result of a list of detectors tried in order: the first
    result that is not empty. *)
Fixpoint first_nonempty {A} (results : list (list A)) : list A :=
  match results with
  | [] => []
  | r :: rest => if is_empty r then first_nonempty rest else r
  end.

Lemma detect_priority (soup : list node) :
  detect soup
  = first_nonempty [strategy1 soup; strategy2 soup; strategy3 soup].
Proof.
  unfold detect. simpl.
  destruct (strategy1 soup) as [|x l]; simpl; [|reflexivity].
  destruct (strategy2 soup) as [|y l']; simpl; [|reflexivity].
  now destruct (strategy3 soup).
Qed.

Lemma select_entry_method (sel : handle) :
  Forall (fun l => how l = M_select) (select_entry sel).
Proof.
  unfold select_entry. destruct (find_parent _ _ sel); repeat constructor.
Qed.

Lemma strategy1_method (soup : list node) :
  Forall (fun l => how l = M_select) (strategy1 soup).
Proof.
  unfold strategy1.
  induction (select (has_class "ticket-select") soup) as [|h hs IH]; simpl.
  - constructor.
  - apply Forall_app. split; [apply select_entry_method | exact IH].
Qed.

Lemma strategy1_nonempty (soup : list node) (sel div : handle) :
  In sel (select (has_class "ticket-select") soup) ->
  find_parent "div" "perform-list" sel = Some div ->
  strategy1 soup <> [].
Proof.
  intros Hin Hp E. unfold strategy1 in E.
  assert (Hx : In {| date := text_or_unknown (select_one (has_class "lead") div);
                     venue := text_or_unknown (select_one (has_name "p") div);
                     tickets := map get_text_strip
                       (select_in (fun n => has_name "option" n
                                            && has_attr "data-ticket-no" n) sel);
                     how := M_select |}
                  (flat_map select_entry
                     (select (has_class "ticket-select") soup))).
  { apply in_flat_map. exists sel. split; [exact Hin|].
    unfold select_entry. rewrite Hp. now left. }
  rewrite E in Hx. destruct Hx.
Qed.

(** C2: the detector returns the result of the first of its three
    strategies, in the order selection-control, active-block,
    purchase-button, that is not empty; and on a page with a
    ticket-quantity control inside a [div.perform-list] block the
    result is the selection-control result alone, whatever blocks
    (muted or not) and buttons the page also holds. *)
Theorem strategy_priority (soup : list node) :
  detect soup
  = first_nonempty [strategy1 soup; strategy2 soup; strategy3 soup]
  /\ (forall sel div : handle,
        In sel (select (has_class "ticket-select") soup) ->
        find_parent "div" "perform-list" sel = Some div ->
        detect soup = strategy1 soup
        /\ detect soup <> []
        /\ Forall (fun l => how l = M_select) (detect soup)).
Proof.
  split; [apply detect_priority|].
  intros sel div Hin Hp.
  pose proof (strategy1_nonempty soup sel div Hin Hp) as Hne.
  assert (E : detect soup = strategy1 soup).
  { rewrite detect_priority. simpl.
    destruct (strategy1 soup); [contradiction | reflexivity]. }
  rewrite E. split; [reflexivity|]. split; [exact Hne|].
  apply strategy1_method.
Qed.

(** A performance block with a quantity control, followed by a muted
    block and a purchase button. *)
Definition page_select_and_muted : list node :=
  [ Tag "div" ["perform-list"] []
      [ Tag "div" ["lead"] [] [NavigableString " 12/25 18:00 "];
        Tag "p" [] [] [NavigableString "Hall A"];
        Tag "form" ["ticket-form"] []
          [ Tag "select" ["ticket-select"] []
              [ Tag "option" [] [] [NavigableString "--"];
                Tag "option" [] [("data-ticket-no", "1")]
                  [NavigableString "1"];
                Tag "option" [] [("data-ticket-no", "2")]
                  [NavigableString "2"] ];
            Tag "button" [] [] [NavigableString "購入手続きへ"] ] ];
    Tag "div" ["perform-list"; "text-muted"] []
      [ Tag "div" ["lead"] [] [NavigableString "12/26 18:00"];
        Tag "p" [] [] [NavigableString "Hall B"] ] ].

Example detect_page_select_and_muted :
  detect page_select_and_muted
  = [ {| date := "12/25 18:00"; venue := "Hall A"; tickets := ["1"; "2"];
         how := M_select |} ].
Proof. vm_compute. reflexivity. Qed.

Lemma strategy_priority_witness :
  detect page_select_and_muted = strategy1 page_select_and_muted
  /\ detect page_select_and_muted <> []
  /\ Forall (fun l => how l = M_select) (detect page_select_and_muted).
Proof.
  destruct (select (has_class "ticket-select") page_select_and_muted)
    as [|sel rest] eqn:Hs; [vm_compute in Hs; discriminate Hs|].
  destruct (find_parent "div" "perform-list" sel) as [div|] eqn:Hp.
  - apply (proj2 (strategy_priority page_select_and_muted) sel div).
    + rewrite Hs. now left.
    + exact Hp.
  - vm_compute in Hs. inversion Hs; subst. vm_compute in Hp. discriminate Hp.
Defined.

Definition has_phrase (btn : handle) : bool :=
  Str.contains purchase_phrase (get_text_strip btn).

Lemma strategy3_repeat (soup : list node) :
  strategy3 soup
  = repeat button_listing
      (length (List.filter has_phrase (select clickable soup))).
Proof.
  unfold strategy3.
  induction (select clickable soup) as [|h hs IH]; simpl; [reflexivity|].
  rewrite IH. unfold button_entry, has_phrase.
  destruct (Str.contains purchase_phrase (get_text_strip h)); reflexivity.
Qed.

(** Two purchase buttons and nothing else. *)
Definition page_two_buttons : list node :=
  [ Tag "button" [] [] [NavigableString "購入手続きへ"];
    Tag "a" ["btn"] [] [NavigableString "購入手続きへ進む"] ].

(** C6, as stated, fails: with two matching clickable elements the
    detector returns two entries. *)
Lemma two_buttons_two_entries :
  ~ (forall soup : list node,
       strategy1 soup = [] -> strategy2 soup = [] ->
       (exists btn, In btn (select clickable soup) /\ has_phrase btn = true) ->
       detect soup = [button_listing]).
Proof.
  intros H. specialize (H page_two_buttons eq_refl eq_refl).
  assert (Hex : exists btn, In btn (select clickable page_two_buttons)
                            /\ has_phrase btn = true).
  { exists ([], Tag "button" [] [] [NavigableString "購入手続きへ"]).
    split; [now left | vm_compute; reflexivity]. }
  specialize (H Hex). vm_compute in H. discriminate H.
Qed.

(** C6 (amended): when strategies 1 and 2 yield nothing and at least
    one clickable element has text containing the purchase phrase, the
    detector returns one synthetic entry (unknown date and venue, no
    ticket labels) per such element, hence at least one. *)
Theorem purchase_button_entries (soup : list node) :
  strategy1 soup = [] -> strategy2 soup = [] ->
  (exists btn, In btn (select clickable soup) /\ has_phrase btn = true) ->
  detect soup
  = repeat {| date := unknown; venue := unknown; tickets := [];
              how := M_button |}
      (length (List.filter has_phrase (select clickable soup)))
  /\ (1 <= length (detect soup))%nat.
Proof.
  intros H1 H2 (btn & Hin & Hb).
  assert (E : detect soup = strategy3 soup).
  { rewrite detect_priority. simpl. rewrite H1, H2. simpl.
    now destruct (strategy3 soup). }
  rewrite E, strategy3_repeat. split; [reflexivity|].
  rewrite repeat_length.
  assert (Hf : In btn (List.filter has_phrase (select clickable soup))).
  { apply filter_In. now split. }
  destruct (List.filter has_phrase (select clickable soup));
    [destruct Hf | simpl; lia].
Qed.

Lemma purchase_button_entries_witness :
  detect page_two_buttons
  = repeat {| date := unknown; venue := unknown; tickets := [];
              how := M_button |}
      (length (List.filter has_phrase (select clickable page_two_buttons)))
  /\ (1 <= length (detect page_two_buttons))%nat.
Proof.
  apply (purchase_button_entries page_two_buttons);
    [reflexivity | reflexivity |].
  exists ([], Tag "button" [] [] [NavigableString "購入手続きへ"]).
  split; [now left | vm_compute; reflexivity].
Defined.

Lemma flat_map_nil {A B} (f : A -> list B) (l : list A) :
  (forall x, In x l -> f x = []) -> flat_map f l = [].
Proof.
  induction l as [|x l IH]; simpl; intros H; [reflexivity|].
  rewrite (H x (or_introl eq_refl)), IH; [reflexivity|].
  intros y Hy. apply H. now right.
Qed.

(** C7: a page on which every [.perform-list] block carries
    [text-muted], no [.ticket-select] control exists and no clickable
    element has text containing the purchase phrase yields the empty
    list. *)
Theorem sold_out_empty (soup : list node) :
  (forall div, In div (select (has_class "perform-list") soup) ->
               has_class "text-muted" div.2 = true) ->
  select (has_class "ticket-select") soup = [] ->
  (forall btn, In btn (select clickable soup) -> has_phrase btn = false) ->
  detect soup = [].
Proof.
  intros Hmuted Hsel Hbtn.
  rewrite detect_priority. simpl.
  assert (E1 : strategy1 soup = []) by (unfold strategy1; now rewrite Hsel).
  assert (E2 : strategy2 soup = []).
  { unfold strategy2. apply flat_map_nil. intros div Hin.
    unfold active_entry. fold (has_class "text-muted" div.2).
    now rewrite (Hmuted div Hin). }
  assert (E3 : strategy3 soup = []).
  { unfold strategy3. apply flat_map_nil. intros btn Hin.
    unfold button_entry. fold (has_phrase btn).
    now rewrite (Hbtn btn Hin). }
  now rewrite E1, E2, E3.
Qed.

(** Two muted blocks and a button that does not lead to a purchase. *)
Definition page_sold_out : list node :=
  [ Tag "div" ["perform-list"; "text-muted"] []
      [ Tag "div" ["lead"] [] [NavigableString "12/25 18:00"];
        Tag "p" [] [] [NavigableString "Hall A"] ];
    Tag "div" ["text-muted"; "perform-list"] []
      [ Tag "div" ["lead"] [] [NavigableString "12/26 18:00"];
        Tag "p" [] [] [NavigableString "Hall B"] ];
    Tag "button" [] [] [NavigableString "ログイン"] ].

Lemma sold_out_empty_witness : detect page_sold_out = [].
Proof.
  apply (sold_out_empty page_sold_out).
  - intros div Hin. vm_compute in Hin.
    destruct Hin as [<- | [<- | []]]; reflexivity.
  - reflexivity.
  - intros btn Hin. vm_compute in Hin.
    destruct Hin as [<- | []]. vm_compute. reflexivity.
Defined.

End DetectorFacts.

(* ===================================================================== *)
(** ** The listing extractor *)
(* ===================================================================== *)

Section ExtractorFacts.
Import Eff Extractor Monitor.

(** [s] after the outputs [os] were emitted. *)
Definition emitted (s : St) (os : list output) : St :=
  {| nav := nav s; clk := clk s; naps := naps s;
     out := out s ++ os; file := file s |}.

Lemma emitted_nil (s : St) : emitted s [] = s.
Proof. destruct s. unfold emitted. simpl. now rewrite app_nil_r. Qed.

Lemma emitted_app (s : St) (a b : list output) :
  emitted (emitted s a) b = emitted s (a ++ b).
Proof. unfold emitted. simpl. now rewrite app_assoc. Qed.

(** The hrefs of a list, each kept at its first occurrence only. *)
Fixpoint distinct_in_order (l : list string) : list string :=
  match l with
  | [] => []
  | x :: l' => x :: filter (fun y => y <> x) (distinct_in_order l')
  end.

(** The events the loop of [get_event_urls] appends, given the hrefs
    already seen. *)
Fixpoint scan (artist_id : Z) (links : list link) (seen : gset string)
  : list event :=
  match links with
  | [] => []
  | l :: rest =>
      let h := href_or_empty l in
      if event_href artist_id h && negb (bool_decide (h ∈ seen))
      then describe l :: scan artist_id rest ({[ h ]} ∪ seen)
      else scan artist_id rest seen
  end.

Lemma bind_run {A B} (m : M A) (k : A -> M B) (s : St) :
  bind m k s
  = match m s with
    | (Ok a, s') => k a s'
    | (Raise e, s') => (Raise e, s')
    end.
Proof. reflexivity. Qed.

Lemma log_run (msg : string) (s : St) :
  log msg s = (Ok tt, emitted s [Log msg]).
Proof. reflexivity. Qed.

Lemma emit_run (o : output) (s : St) : emit o s = (Ok tt, emitted s [o]).
Proof. reflexivity. Qed.

Lemma ret_run {A} (a : A) (s : St) : ret a s = (Ok a, s).
Proof. reflexivity. Qed.

Lemma scan_link_run (artist_id : Z) (events : list event)
    (seen : gset string) (l : link) (s : St) :
  scan_link artist_id (events, seen) l s
  = if event_href artist_id (href_or_empty l)
       && negb (bool_decide (href_or_empty l ∈ seen))
    then (Ok (events ++ [describe l], {[ href_or_empty l ]} ∪ seen),
          emitted s [Log ("    イベント: " +:+ name (describe l))])
    else (Ok (events, seen), s).
Proof.
  unfold scan_link.
  now destruct (event_href artist_id (href_or_empty l)
                && negb (bool_decide (href_or_empty l ∈ seen))).
Qed.

(** The line [get_event_urls] logs for an event it keeps. *)
Definition event_log (ev : event) : output :=
  Log ("    イベント: " +:+ name ev).

Lemma for_each_scan_link (artist_id : Z) (links : list link)
    (events : list event) (seen : gset string) (s : St) :
  exists seen',
    for_each (scan_link artist_id) links (events, seen) s
    = (Ok (events ++ scan artist_id links seen, seen'),
       emitted s (map event_log (scan artist_id links seen))).
Proof.
  revert events seen s.
  induction links as [|l rest IH]; intros events seen s.
  - exists seen. simpl. now rewrite ret_run, app_nil_r, emitted_nil.
  - cbn [for_each scan]. rewrite bind_run, scan_link_run.
    destruct (event_href artist_id (href_or_empty l)
              && negb (bool_decide (href_or_empty l ∈ seen))).
    + destruct (IH (events ++ [describe l]) ({[href_or_empty l]} ∪ seen)
                  (emitted s [Log ("    イベント: " +:+ name (describe l))]))
        as (seen' & E).
      rewrite E. exists seen'.
      rewrite emitted_app. now rewrite <- app_assoc.
    + apply IH.
Qed.

Lemma distinct_in_order_NoDup (l : list string) : NoDup (distinct_in_order l).
Proof.
  induction l as [|x l IH]; simpl; constructor.
  - intros Hin. apply list_elem_of_filter in Hin as [Hne _]. now apply Hne.
  - now apply NoDup_filter.
Qed.

Lemma scan_paths (artist_id : Z) (links : list link) (seen : gset string) :
  map path (scan artist_id links seen)
  = filter (fun h => h ∉ seen)
      (distinct_in_order
         (filter (fun h => event_href artist_id h = true)
                 (map href_or_empty links))).
Proof.
  revert seen. induction links as [|l rest IH]; intros seen; simpl.
  - reflexivity.
  - rewrite filter_cons.
    destruct (event_href artist_id (href_or_empty l)) eqn:Hm; simpl.
    + destruct (decide (true = true)) as [_|Hn]; [|now contradiction Hn].
      simpl. rewrite filter_cons. case_bool_decide as Hs; simpl.
      * rewrite decide_False by (intros Hn; now apply Hn).
        rewrite IH, list_filter_filter. apply list_filter_iff.
        intros h. split; [intros Hh; split; [exact Hh|] | now intros [Hh _]].
        intros ->. now apply Hh.
      * rewrite decide_True by exact Hs. f_equal.
        rewrite IH, list_filter_filter. apply list_filter_iff.
        intros h. rewrite not_elem_of_union, not_elem_of_singleton. tauto.
    + destruct (decide (false = true)) as [Hn|_]; [discriminate Hn|].
      apply IH.
Qed.

Lemma scan_first_occurrence (artist_id : Z) (links : list link)
    (seen : gset string) (ev : event) :
  ev ∈ scan artist_id links seen ->
  exists pre l post,
    links = pre ++ l :: post
    /\ (forall l', l' ∈ pre -> href_or_empty l' <> href_or_empty l)
    /\ (href_or_empty l ∉ seen)
    /\ event_href artist_id (href_or_empty l) = true
    /\ ev = describe l.
Proof.
  revert seen. induction links as [|l rest IH]; intros seen; simpl.
  - intros H. inversion H.
  - destruct (event_href artist_id (href_or_empty l)) eqn:Hm; simpl.
    + case_bool_decide as Hs; simpl.
      * intros Hin.
        destruct (IH _ Hin) as (pre & l0 & post & -> & Hpre & Hs0 & Hm0 & ->).
        exists (l :: pre), l0, post. split; [reflexivity|].
        split; [|now split].
        intros l' Hl'. apply elem_of_cons in Hl' as [-> | Hl']; [|now apply Hpre].
        intros E. apply Hs0. now rewrite <- E.
      * intros Hin. apply elem_of_cons in Hin as [-> | Hin].
        -- exists [], l, rest. split; [reflexivity|].
           split; [intros l' Hl'; inversion Hl'|].
           split; [intros Hx; now apply Hs | now split].
        -- destruct (IH _ Hin) as (pre & l0 & post & -> & Hpre & Hs0 & Hm0 & ->).
           exists (l :: pre), l0, post. split; [reflexivity|].
           split; [|split; [set_solver | now split]].
           intros l' Hl'. apply elem_of_cons in Hl' as [-> | Hl']; [|now apply Hpre].
           intros E. apply Hs0. rewrite <- E. set_solver.
    + intros Hin.
      destruct (IH _ Hin) as (pre & l0 & post & -> & Hpre & Hs0 & Hm0 & ->).
      exists (l :: pre), l0, post. split; [reflexivity|].
      split; [|now split].
      intros l' Hl'. apply elem_of_cons in Hl' as [-> | Hl']; [|now apply Hpre].
      intros E. rewrite E in Hm. congruence.
Qed.

Lemma filter_all {A} (P : A -> Prop) `{forall x, Decision (P x)}
    (l : list A) :
  (forall x, P x) -> filter P l = l.
Proof.
  intros HP. induction l as [|x l IH]; [reflexivity|].
  rewrite filter_cons_True by apply HP. now rewrite IH.
Qed.

Lemma get_event_urls_unresolved (w : world) (artist_name : string) (s : St) :
  resolve artist_name = None ->
  get_event_urls w artist_name s
  = (Ok [], emitted s [Log ("  アーティストID不明: " +:+ artist_name)]).
Proof. intros H. unfold get_event_urls. now rewrite H. Qed.

(** [s] after one navigation. *)
Definition navigated (s : St) : St :=
  {| nav := S (nav s); clk := clk s; naps := naps s;
     out := out s; file := file s |}.

(** [s] after one reading of the clock. *)
Definition ticked (s : St) : St :=
  {| nav := nav s; clk := S (clk s); naps := naps s;
     out := out s; file := file s |}.

Lemma navigate_run (w : world) (u : string) (s : St) :
  navigate w u s = (goto w (nav s) u, navigated s).
Proof. reflexivity. Qed.

Lemma now_run (w : world) (s : St) :
  now w s = (Ok (clock w (clk s)), ticked s).
Proof. reflexivity. Qed.

(** [get_event_urls] as an equation on its three ways out. *)
Lemma get_event_urls_run (w : world) (artist_name : string) (s : St) :
  get_event_urls w artist_name s
  = match resolve artist_name with
    | None =>
        (Ok [], emitted s [Log ("  アーティストID不明: " +:+ artist_name)])
    | Some artist_id =>
        let s1 :=
          navigated
            (emitted s [Log ("  イベント一覧: " +:+ artist_url artist_id)]) in
        match goto w (nav s) (artist_url artist_id) with
        | Ok pg =>
            (Ok (scan artist_id (anchors pg) ∅),
             emitted s1 (map event_log (scan artist_id (anchors pg) ∅)))
        | Raise e => (Raise e, s1)
        end
    end.
Proof.
  unfold get_event_urls. destruct (resolve artist_name) as [artist_id|];
    [|reflexivity].
  rewrite bind_run, log_run, bind_run, navigate_run. simpl nav.
  destruct (goto w (nav s) (artist_url artist_id)) as [pg|e]; [|reflexivity].
  match goal with
  | |- context [bind (for_each _ _ _) _ ?s1] =>
      destruct (for_each_scan_link artist_id (anchors pg) [] ∅ s1)
        as (seen' & E); rewrite bind_run, E
  end.
  reflexivity.
Qed.

Lemma get_event_urls_rendered (w : world) (artist_name : string) (s : St)
    (artist_id : Z) (pg : page) :
  resolve artist_name = Some artist_id ->
  goto w (nav s) (artist_url artist_id) = Ok pg ->
  exists s',
    get_event_urls w artist_name s
    = (Ok (scan artist_id (anchors pg) ∅), s').
Proof.
  intros Hr Hg. rewrite get_event_urls_run, Hr. simpl. rewrite Hg.
  eexists. reflexivity.
Qed.

(** What the pattern [/events/artist/{artist_id}/\d+], matched from
    the start of a string, asks of it: the literal prefix with the key
    in decimal, a slash, then a decimal digit; what follows is free. *)
Definition matches_pattern (artist_id : Z) (h : string) : Prop :=
  exists digit rest,
    In digit Str.decimal_codes
    /\ h = "/events/artist/" +:+ Str.of_int artist_id +:+ "/"
           +:+ Str.utf8 digit +:+ rest.

(** [line] is the first line of [text]: it holds no line feed, and
    [text] is [line] alone or [line], a line feed and more. *)
Definition is_first_line (line text : string) : Prop :=
  Str.mem_char "010"%char line = false
  /\ (text = line \/ exists rest, text = line +:+ Str.nl +:+ rest).

Lemma event_href_iff (artist_id : Z) (h : string) :
  event_href artist_id h = true <-> matches_pattern artist_id h.
Proof.
  unfold event_href, matches_pattern. split.
  - destruct (Str.strip_prefix
                ("/events/artist/" +:+ Str.of_int artist_id +:+ "/") h)
      as [r|] eqn:Er; [|discriminate].
    intros Hd. apply starts_decimal_iff in Hd as (digit & rest & Hin & ->).
    exists digit, rest. split; [exact Hin|].
    apply strip_prefix_Some in Er. rewrite Er.
    now rewrite !append_assoc.
  - intros (digit & rest & Hin & ->).
    rewrite <- (append_assoc (Str.of_int artist_id) "/"
                  (Str.utf8 digit +:+ rest)).
    rewrite <- (append_assoc "/events/artist/"
                  (Str.of_int artist_id +:+ "/") (Str.utf8 digit +:+ rest)).
    rewrite strip_prefix_app. apply starts_decimal_iff.
    now exists digit, rest.
Qed.

Lemma event_href_empty (artist_id : Z) : event_href artist_id "" = false.
Proof. reflexivity. Qed.

Lemma first_line_spec (text : string) :
  is_first_line (Str.first_line text) text.
Proof.
  induction text as [|c text [IH1 IH2]]; simpl.
  - split; [reflexivity | now left].
  - destruct (Ascii.eqb c "010"%char) eqn:E.
    + apply Ascii.eqb_eq in E as ->. split; [reflexivity|].
      right. now exists text.
    + split; [simpl; now rewrite E, IH1|].
      destruct IH2 as [IH2 | [rest IH2]].
      * left. now rewrite <- IH2.
      * right. exists rest.
        change (String c text
                = String c (Str.first_line text +:+ Str.nl +:+ rest)).
        now rewrite <- IH2.
Qed.

(** Links without an href count for nothing in the test. *)
Lemma filter_hrefs (artist_id : Z) (links : list link) :
  filter (fun h => event_href artist_id h = true) (map href_or_empty links)
  = filter (fun h => event_href artist_id h = true) (omap href links).
Proof.
  induction links as [|l links IH]; [reflexivity|].
  cbn [map omap list_omap]. unfold href_or_empty at 1.
  destruct (href l) as [h|].
  - rewrite !filter_cons. now rewrite IH.
  - rewrite filter_cons, event_href_empty.
    destruct (decide (false = true)) as [Hn|_]; [discriminate Hn | exact IH].
Qed.

Lemma elem_of_distinct_in_order (x : string) (l : list string) :
  x ∈ distinct_in_order l <-> x ∈ l.
Proof.
  induction l as [|y l IH]; simpl; [reflexivity|].
  rewrite !elem_of_cons, list_elem_of_filter, IH.
  destruct (decide (x = y)) as [->|Hne]; [tauto|].
  split; [intros [H | [_ H]]; auto | intros [H | H]; auto].
Qed.

(** C8: for an artist name that does not resolve to a numeric key the
    extractor returns the empty list, logs a warning and raises
    nothing.  Otherwise, on the rendered index page, the paths of the
    descriptors it returns are the hrefs of the page that match the
    pattern (the prefix with the artist key, then a digit), each once,
    in document order of their first occurrence; and each descriptor
    has the path of a link of the page that no earlier link carries,
    is named by the first line of the stripped text of that link, and
    has the site root followed by the path as its URL. *)
Theorem listing_extractor (w : world) (artist_name : string) (s : St) :
  (resolve artist_name = None ->
   get_event_urls w artist_name s
   = (Ok [], emitted s [Log ("  アーティストID不明: " +:+ artist_name)]))
  /\ (forall (artist_id : Z) (pg : page),
        resolve artist_name = Some artist_id ->
        goto w (nav s) (artist_url artist_id) = Ok pg ->
        exists events s',
          get_event_urls w artist_name s = (Ok events, s')
          /\ (forall h, event_href artist_id h = true
                        <-> matches_pattern artist_id h)
          /\ map path events
             = distinct_in_order
                 (filter (fun h => event_href artist_id h = true)
                         (omap href (anchors pg)))
          /\ NoDup (map path events)
          /\ (forall h, h ∈ map path events
                        <-> matches_pattern artist_id h
                            /\ exists l, l ∈ anchors pg /\ href l = Some h)
          /\ (forall ev, ev ∈ events ->
               exists pre l post,
                 anchors pg = pre ++ l :: post
                 /\ href l = Some (path ev)
                 /\ (forall l', l' ∈ pre -> href l' <> Some (path ev))
                 /\ (exists text, is_strip text (inner_text l)
                                  /\ is_first_line (name ev) text)
                 /\ url ev = BASE_URL +:+ path ev)).
Proof.
  split; [apply get_event_urls_unresolved|].
  intros artist_id pg Hr Hg.
  destruct (get_event_urls_rendered w artist_name s artist_id pg Hr Hg)
    as (s' & E).
  exists (scan artist_id (anchors pg) ∅), s'.
  assert (Hp : map path (scan artist_id (anchors pg) ∅)
               = distinct_in_order
                   (filter (fun h => event_href artist_id h = true)
                           (omap href (anchors pg)))).
  { rewrite scan_paths, filter_hrefs. apply filter_all. intros h.
    apply not_elem_of_empty. }
  split; [exact E|]. split; [apply event_href_iff|].
  split; [exact Hp|].
  split; [rewrite Hp; apply distinct_in_order_NoDup|].
  split.
  - intros h. rewrite Hp, elem_of_distinct_in_order, list_elem_of_filter.
    rewrite event_href_iff, list_elem_of_omap. reflexivity.
  - intros ev Hev.
    destruct (scan_first_occurrence _ _ _ _ Hev)
      as (pre & l & post & Hl & Hpre & _ & Hm & ->).
    exists pre, l, post. split; [exact Hl|].
    unfold href_or_empty in Hm, Hpre. cbn [describe path name url].
    unfold href_or_empty.
    destruct (href l) as [h|] eqn:Eh;
      [|rewrite event_href_empty in Hm; discriminate Hm].
    split; [reflexivity|].
    split; [|split; [|reflexivity]].
    + intros l' Hl' El'. apply (Hpre l' Hl'). now rewrite El'.
    + exists (Str.strip (inner_text l)).
      split; [apply strip_spec | apply first_line_spec].
Qed.

(** An index page with a repeated event link, a foreign link and a
    link without href. *)
Definition index_page : page :=
  {| anchors :=
       [ {| href := Some "/events/artist/38/101";
            inner_text := " Winter Tour" +:+ Str.nl +:+ "Tokyo " |};
         {| href := Some "/about"; inner_text := "About" |};
         {| href := Some "/events/artist/38/101"; inner_text := "Details" |};
         {| href := None; inner_text := "Top" |};
         {| href := Some "/events/artist/38/102"; inner_text := "Spring Tour" |} ];
     content := [] |}.

Definition index_world : world :=
  {| goto := fun _ _ => Ok index_page;
     clock := fun _ => 0;
     sleep := fun _ => Ok tt |}.

Definition initial : St :=
  {| nav := 0; clk := 0; naps := 0; out := []; file := None |}.

Example get_event_urls_index_page :
  (get_event_urls index_world "Travis Japan" initial).1
  = Ok [ {| name := "Winter Tour";
            url := "https://relief-ticket.jp/events/artist/38/101";
            path := "/events/artist/38/101" |};
         {| name := "Spring Tour";
            url := "https://relief-ticket.jp/events/artist/38/102";
            path := "/events/artist/38/102" |} ].
Proof. vm_compute. reflexivity. Qed.

(** An index page with a link text that starts with an ideographic
    space and runs over two lines, a repeated event link, a foreign
    link, a link without href, an event link of another artist, and an
    event link numbered in full-width digits. *)
Definition index_page_wide : page :=
  {| anchors :=
       [ {| href := Some "/events/artist/38/101";
            inner_text := "　Winter Tour" +:+ Str.nl +:+ "Tokyo " |};
         {| href := Some "/about"; inner_text := "About" |};
         {| href := Some "/events/artist/38/101"; inner_text := "Details" |};
         {| href := None; inner_text := "Top" |};
         {| href := Some "/events/artist/380/7"; inner_text := "Other" |};
         {| href := Some "/events/artist/38/１０２";
            inner_text := "Spring Tour" |} ];
     content := [] |}.

Definition index_world_wide : world :=
  {| goto := fun _ _ => Ok index_page_wide;
     clock := fun _ => 0;
     sleep := fun _ => Ok tt |}.

Example get_event_urls_index_page_wide :
  (get_event_urls index_world_wide "Travis Japan" initial).1
  = Ok [ {| name := "Winter Tour";
            url := "https://relief-ticket.jp/events/artist/38/101";
            path := "/events/artist/38/101" |};
         {| name := "Spring Tour";
            url := "https://relief-ticket.jp/events/artist/38/１０２";
            path := "/events/artist/38/１０２" |} ].
Proof. vm_compute. reflexivity. Qed.

Lemma listing_extractor_witness :
  get_event_urls index_world_wide "Nobody" initial
  = (Ok [], emitted initial [Log ("  アーティストID不明: " +:+ "Nobody")])
  /\ exists events s',
       get_event_urls index_world_wide "Travis Japan" initial
       = (Ok events, s')
       /\ (forall h, event_href 38 h = true <-> matches_pattern 38 h)
       /\ map path events
          = distinct_in_order
              (filter (fun h => event_href 38 h = true)
                      (omap href (anchors index_page_wide)))
       /\ NoDup (map path events)
       /\ (forall h, h ∈ map path events
                     <-> matches_pattern 38 h
                         /\ exists l, l ∈ anchors index_page_wide
                                      /\ href l = Some h)
       /\ (forall ev, ev ∈ events ->
            exists pre l post,
              anchors index_page_wide = pre ++ l :: post
              /\ href l = Some (path ev)
              /\ (forall l', l' ∈ pre -> href l' <> Some (path ev))
              /\ (exists text, is_strip text (inner_text l)
                               /\ is_first_line (name ev) text)
              /\ url ev = BASE_URL +:+ path ev).
Proof.
  split.
  - apply (proj1 (listing_extractor index_world_wide "Nobody" initial)).
    reflexivity.
  - apply (proj2 (listing_extractor index_world_wide "Travis Japan" initial)
             38 index_page_wide); reflexivity.
Defined.

End ExtractorFacts.

(* ===================================================================== *)
(** ** Reasoning about runs *)
(* ===================================================================== *)

Section Logic.
Import Eff.

(** What holds of a run: [Q] of the value and state when it returns,
    [E] of the exception and state when it raises. *)
Definition post {A} (r : outcome A * St)
    (Q : A -> St -> Prop) (E : exn -> St -> Prop) : Prop :=
  match r with
  | (Ok a, s) => Q a s
  | (Raise e, s) => E e s
  end.

(** Two runs that end the same way, with related values and states. *)
Definition agree {A B} (r1 : outcome A * St) (r2 : outcome B * St)
    (Rv : A -> B -> Prop) (Re : exn -> exn -> Prop)
    (Rs : St -> St -> Prop) : Prop :=
  match r1, r2 with
  | (Ok a, s1), (Ok b, s2) => Rv a b /\ Rs s1 s2
  | (Raise e1, s1), (Raise e2, s2) => Re e1 e2 /\ Rs s1 s2
  | _, _ => False
  end.


Lemma post_for_each {A B} (f : B -> A -> M B) (l : list A)
    (I : B -> St -> Prop) (E : exn -> St -> Prop) :
  (forall x b s, x ∈ l -> I b s -> post (f b x s) I E) ->
  forall b s, I b s -> post (for_each f l b s) I E.
Proof.
  induction l as [|x l IH]; intros Hf b s Hb; simpl.
  - exact Hb.
  - rewrite bind_run.
    pose proof (Hf x b s (list_elem_of_here x l) Hb) as Hx.
    destruct (f b x s) as [[b'|e] s']; simpl in Hx.
    + apply IH; [|exact Hx].
      intros y b0 s0 Hy. apply Hf. now apply list_elem_of_further.
    + exact Hx.
Qed.

Lemma agree_for_each {A B1 B2} (f : B1 -> A -> M B1) (g : B2 -> A -> M B2)
    (l : list A) (Rv : B1 -> B2 -> Prop) (Re : exn -> exn -> Prop)
    (Rs : St -> St -> Prop) :
  (forall x b1 b2 s1 s2, x ∈ l -> Rv b1 b2 -> Rs s1 s2 ->
                         agree (f b1 x s1) (g b2 x s2) Rv Re Rs) ->
  forall b1 b2 s1 s2, Rv b1 b2 -> Rs s1 s2 ->
    agree (for_each f l b1 s1) (for_each g l b2 s2) Rv Re Rs.
Proof.
  induction l as [|x l IH]; intros Hfg b1 b2 s1 s2 Hb Hs; simpl.
  - now split.
  - rewrite !bind_run.
    pose proof (Hfg x b1 b2 s1 s2 (list_elem_of_here x l) Hb Hs) as Hx.
    destruct (f b1 x s1) as [[b1'|e1] s1'], (g b2 x s2) as [[b2'|e2] s2'];
      simpl in Hx; try contradiction.
    + destruct Hx as [Hb' Hs']. apply IH; [|exact Hb'|exact Hs'].
      intros y c1 c2 t1 t2 Hy. apply Hfg. now apply list_elem_of_further.
    + exact Hx.
Qed.

End Logic.

Section RunEquations.
Import Eff Extractor Detector Store Monitor.

Context {Acc : Type}.
Variable w : world.
Variable body : string -> event -> Acc -> listing -> M Acc.

Lemma check_event_tickets_run (ev : event) (s : St) :
  check_event_tickets w ev s
  = (match goto w (nav s) (url ev) with
     | Ok pg => Ok (detect (content pg))
     | Raise e => Raise e
     end,
     navigated (emitted s [Log ("  チケット確認: " +:+ name ev)])).
Proof.
  unfold check_event_tickets.
  rewrite bind_run, log_run, bind_run, navigate_run. simpl nav.
  now destruct (goto w (nav s) (url ev)).
Qed.

(** The body of the event loop as an equation: what it does on each
    result of the navigation. *)
Lemma per_event_run (a : string) (acc : Acc) (ev : event) (s : St) :
  per_event w body a acc ev s
  = let s1 := navigated (emitted s [Log ("  チケット確認: " +:+ name ev)]) in
    match goto w (nav s) (url ev) with
    | Ok pg =>
        if is_empty (detect (content pg))
        then (Ok acc, emitted s1 [Log "    在庫なし"])
        else for_each (body a ev) (detect (content pg)) acc s1
    | Raise (Exception msg) =>
        (Ok acc,
         emitted s1 [Log ("  エラー (" +:+ name ev +:+ "): " +:+ msg)])
    | Raise e => (Raise e, s1)
    end.
Proof.
  unfold per_event. rewrite bind_run. unfold try_except.
  rewrite bind_run, check_event_tickets_run.
  destruct (goto w (nav s) (url ev)) as [pg|[msg| |msg]]; simpl; try reflexivity.
  now destruct (is_empty (detect (content pg))).
Qed.

Lemma per_artist_run (acc : Acc) (a : string) (s : St) :
  per_artist w body acc a s
  = match get_event_urls w a (emitted s [Log ("--- " +:+ a +:+ " ---")]) with
    | (Ok events, s1) =>
        if is_empty events
        then (Ok acc, emitted s1 [Log "  イベントなし"])
        else for_each (per_event w body a) events acc s1
    | (Raise e, s1) => (Raise e, s1)
    end.
Proof.
  unfold per_artist. rewrite bind_run, log_run, bind_run.
  destruct (get_event_urls w a _) as [[events|e] s1]; [|reflexivity].
  now destruct (is_empty events).
Qed.

End RunEquations.

(* ===================================================================== *)
(** ** One poll cycle *)
(* ===================================================================== *)

Section Cycle.
Import Eff Extractor Detector Store Monitor.

(** The mapping a cycle starts from. *)
Definition notified_of (f : option state) : gmap string Z :=
  match f with
  | Some st => notified st
  | None => ∅
  end.

(** What the delivery loop emits. *)
Definition deliveries (fs : list finding) : list output :=
  flat_map (fun f =>
              [ SendLine (message f);
                NotifyDesktop "RELIEF Ticket"
                  (artist f +:+ " " +:+ f_date f +:+ " " +:+ f_venue f) ]) fs.

(** The summary line logged after the deliveries. *)
Definition summary (fs : list finding) : output :=
  Log (if is_empty fs then "変更なし"
       else "=== " +:+ Str.of_int (Z.of_nat (length fs))
            +:+ "件の新規リセール検出! ===").

(** The state after pruning the mapping [n] and saving it: two readings
    of the clock, the first for the cutoff, the second for
    [last_check]. *)
Definition persisted (w : world) (n : gmap string Z) (s : St) : St :=
  {| nav := nav s; clk := S (S (clk s)); naps := naps s; out := out s;
     file := Some {| notified := prune (clock w (clk s)) n;
                     last_check := Some (clock w (S (clk s))) |} |}.

Lemma load_state_run (s : St) :
  exists st, load_state s = (Ok st, s) /\ notified st = notified_of (file s).
Proof.
  unfold load_state. rewrite bind_run. unfold read_file.
  destruct (file s) as [st|] eqn:E; eexists; split; try reflexivity.
Qed.

Lemma deliver_run (fs : list finding) (s : St) :
  for_each deliver fs tt s = (Ok tt, emitted s (deliveries fs)).
Proof.
  revert s. induction fs as [|f fs IH]; intros s; simpl.
  - now rewrite ret_run, emitted_nil.
  - rewrite bind_run. unfold deliver at 1.
    rewrite bind_run, !emit_run, IH, !emitted_app. reflexivity.
Qed.

(** [run_check] as an equation on the result of its loops. *)
Lemma run_check_run (cfg : config) (w : world) (s : St) :
  run_check cfg w s
  = match poll w (check_new w) (ARTISTS cfg) (notified_of (file s), []) s with
    | (Ok (n, fs), s1) =>
        (Ok fs,
         persisted w n
           (emitted s1 (BrowserClose :: deliveries fs ++ [summary fs])))
    | (Raise e, s1) => (Raise e, emitted s1 [BrowserClose])
    end.
Proof.
  unfold run_check. rewrite bind_run.
  destruct (load_state_run s) as (st & -> & ->).
  rewrite bind_run. unfold try_finally.
  destruct (poll w (check_new w) (ARTISTS cfg) (notified_of (file s), []) s)
    as [[[n fs]|e] s1]; rewrite emit_run; [|reflexivity].
  rewrite bind_run, deliver_run, bind_run.
  assert (Hlog :
    (if is_empty fs then log "変更なし"
     else log ("=== " +:+ Str.of_int (Z.of_nat (length fs))
               +:+ "件の新規リセール検出! ==="))
      (emitted (emitted s1 [BrowserClose]) (deliveries fs))
    = (Ok tt, emitted s1 (BrowserClose :: deliveries fs ++ [summary fs]))).
  { unfold summary. destruct (is_empty fs); rewrite log_run, !emitted_app;
      reflexivity. }
  rewrite Hlog, bind_run, now_run, bind_run. unfold save_state.
  rewrite bind_run, now_run. reflexivity.
Qed.

Lemma check_new_run (w : world) (a : string) (ev : event)
    (n : gmap string Z) (fs : list finding) (t : listing) (s : St) :
  check_new w a ev (n, fs) t s
  = if bool_decide (dedup_key (path ev) (date t) (venue t) ∉ dom n)
    then (Ok (<[dedup_key (path ev) (date t) (venue t) := clock w (clk s)]> n,
              fs ++ [mk_finding a ev t]),
          ticked s)
    else (Ok (n, fs), s).
Proof.
  unfold check_new.
  now destruct (bool_decide (dedup_key (path ev) (date t) (venue t) ∉ dom n)).
Qed.

(** An event whose [url] is [BASE_URL] followed by its [path], as
    [get_event_urls] builds them. *)
Definition wf_event (ev : event) : Prop := url ev = BASE_URL +:+ path ev.

Lemma scan_wf (artist_id : Z) (links : list link) (seen : gset string)
    (ev : event) :
  ev ∈ scan artist_id links seen -> wf_event ev.
Proof.
  intros H.
  destruct (scan_first_occurrence _ _ _ _ H) as (_ & l & _ & _ & _ & _ & _ & ->).
  reflexivity.
Qed.

(** The path behind an event URL. *)
Definition path_of_url (u : string) : string :=
  match Str.strip_prefix BASE_URL u with
  | Some p => p
  | None => u
  end.

(** The dedup key a finding was built under. *)
Definition finding_key (f : finding) : string :=
  dedup_key (path_of_url (event_url f)) (f_date f) (f_venue f).

Lemma finding_key_mk (a : string) (ev : event) (t : listing) :
  wf_event ev ->
  finding_key (mk_finding a ev t) = dedup_key (path ev) (date t) (venue t).
Proof.
  intros Hwf. unfold finding_key, path_of_url. cbn [mk_finding event_url f_date f_venue].
  rewrite Hwf. now rewrite strip_prefix_app.
Qed.

(** The messages pushed so far. *)
Definition sends (os : list output) : list string :=
  flat_map (fun o => match o with SendLine m => [m] | _ => [] end) os.

(** What the loops of a cycle leave alone: the state file, the pushed
    messages, the number of sleeps. *)
Definition quiet (s0 s : St) : Prop :=
  file s = file s0 /\ sends (out s) = sends (out s0) /\ naps s = naps s0.

Lemma sends_app (a b : list output) : sends (a ++ b) = sends a ++ sends b.
Proof. unfold sends. apply flat_map_app. Qed.

Lemma quiet_refl (s : St) : quiet s s.
Proof. now repeat split. Qed.

Lemma quiet_log (s0 s : St) (msg : string) :
  quiet s0 s -> quiet s0 (emitted s [Log msg]).
Proof.
  intros (Hf & Hs & Hn). repeat split; simpl; try assumption.
  rewrite sends_app, Hs. simpl. apply app_nil_r.
Qed.

Lemma quiet_event_logs (s0 s : St) (evs : list event) :
  quiet s0 s -> quiet s0 (emitted s (map event_log evs)).
Proof.
  intros (Hf & Hs & Hn). repeat split; simpl; try assumption.
  rewrite sends_app, Hs.
  assert (E : sends (map event_log evs) = []) by (induction evs; auto).
  rewrite E. apply app_nil_r.
Qed.

Lemma quiet_navigated (s0 s : St) : quiet s0 s -> quiet s0 (navigated s).
Proof. intros (Hf & Hs & Hn). now repeat split. Qed.

Lemma quiet_ticked (s0 s : St) : quiet s0 s -> quiet s0 (ticked s).
Proof. intros (Hf & Hs & Hn). now repeat split. Qed.

(** That the exception [e] was raised by a navigation. *)
Definition raised_by (w : world) (e : exn) : Prop :=
  exists n u, goto w n u = Raise e.

(** What holds of the mapping and the findings throughout a cycle that
    started from the mapping [m0]: the entries of [m0] are all there
    with their timestamps; every finding has a key that was not in [m0]
    and is in the mapping now; no two findings share a key. *)
Definition dedup_inv (m0 : gmap string Z)
    (acc : gmap string Z * list finding) : Prop :=
  (forall k ts, m0 !! k = Some ts -> acc.1 !! k = Some ts)
  /\ (forall f, f ∈ acc.2 ->
                (finding_key f ∉ dom m0) /\ (finding_key f ∈ dom acc.1))
  /\ NoDup (map finding_key acc.2).

Lemma dedup_inv_init (m0 : gmap string Z) : dedup_inv m0 (m0, []).
Proof.
  repeat split; simpl; try (intros; assumption).
  - inversion H.
  - inversion H.
  - constructor.
Qed.

End Cycle.

Section CycleInvariant.
Import Eff Extractor Detector Store Monitor.

Variable w : world.
Variable m0 : gmap string Z.
Variable s0 : St.

(** The invariant of the three loops of [run_check]. *)
Definition loop_inv (acc : gmap string Z * list finding) (s : St) : Prop :=
  dedup_inv m0 acc /\ quiet s0 s.

Definition loop_exn (e : exn) (s : St) : Prop :=
  quiet s0 s /\ raised_by w e.

Lemma check_new_post (a : string) (ev : event) (t : listing)
    (acc : gmap string Z * list finding) (s : St) :
  wf_event ev -> loop_inv acc s ->
  post (check_new w a ev acc t s) loop_inv loop_exn.
Proof.
  intros Hwf [(Hkeep & Hfs & Hnd) Hq]. destruct acc as [n fs].
  rewrite check_new_run. simpl in Hkeep, Hfs, Hnd.
  set (key := dedup_key (path ev) (date t) (venue t)).
  case_bool_decide as Hk; simpl;
    [| split; [split; [exact Hkeep | split; [exact Hfs | exact Hnd]]
              | exact Hq]].
  split; [|now apply quiet_ticked].
  assert (Hm0 : key ∉ dom m0).
  { intros Hin. apply elem_of_dom in Hin as [ts Hts].
    apply Hk, elem_of_dom. exists ts. now apply Hkeep. }
  repeat split; simpl.
  - intros k ts Hts. rewrite lookup_insert_ne; [now apply Hkeep|].
    intros <-. apply Hm0, elem_of_dom. now exists ts.
  - apply elem_of_app in H as [Hf | Hf].
    + now apply Hfs.
    + apply list_elem_of_singleton in Hf as ->.
      now rewrite finding_key_mk.
  - apply elem_of_app in H as [Hf | Hf].
    + apply dom_insert, elem_of_union. right. now apply Hfs.
    + apply list_elem_of_singleton in Hf as ->.
      rewrite finding_key_mk by exact Hwf.
      apply dom_insert, elem_of_union. left. now apply elem_of_singleton.
  - rewrite map_app. simpl. rewrite finding_key_mk by exact Hwf.
    apply NoDup_app. split; [exact Hnd|]. split; [|apply NoDup_singleton].
    intros k Hin Hk'. apply list_elem_of_singleton in Hk' as ->.
    apply list_elem_of_fmap in Hin as (f & Ef & Hf).
    apply Hk. unfold key. rewrite Ef. now apply Hfs.
Qed.

Lemma per_event_post (a : string) (ev : event)
    (acc : gmap string Z * list finding) (s : St) :
  wf_event ev -> loop_inv acc s ->
  post (per_event w (check_new w) a acc ev s) loop_inv loop_exn.
Proof.
  intros Hwf [Hacc Hq]. rewrite per_event_run. cbv zeta.
  destruct (goto w (nav s) (url ev)) as [pg|e] eqn:Hg.
  - destruct (is_empty (detect (content pg))).
    + split; [exact Hacc|]. now apply quiet_log, quiet_navigated, quiet_log.
    + apply post_for_each.
      * intros t b s' _. now apply check_new_post.
      * split; [exact Hacc|]. now apply quiet_navigated, quiet_log.
  - assert (Hr : raised_by w e) by (now exists (nav s), (url ev)).
    destruct e as [msg| |msg]; simpl.
    + split; [exact Hacc|]. now apply quiet_log, quiet_navigated, quiet_log.
    + split; [|exact Hr]. now apply quiet_navigated, quiet_log.
    + split; [|exact Hr]. now apply quiet_navigated, quiet_log.
Qed.

Lemma per_artist_post (a : string)
    (acc : gmap string Z * list finding) (s : St) :
  loop_inv acc s ->
  post (per_artist w (check_new w) acc a s) loop_inv loop_exn.
Proof.
  intros [Hacc Hq]. rewrite per_artist_run, get_event_urls_run.
  destruct (resolve a) as [artist_id|].
  - cbv zeta. simpl nav.
    destruct (goto w (nav s) (artist_url artist_id)) as [pg|e] eqn:Hg.
    + assert (Hq1 : quiet s0
        (emitted
           (navigated
              (emitted (emitted s [Log ("--- " +:+ a +:+ " ---")])
                 [Log ("  イベント一覧: " +:+ artist_url artist_id)]))
           (map event_log (scan artist_id (anchors pg) ∅)))).
      { now apply quiet_event_logs, quiet_navigated, quiet_log, quiet_log. }
      destruct (is_empty (scan artist_id (anchors pg) ∅)).
      * split; [exact Hacc|]. now apply quiet_log.
      * apply post_for_each; [|now split].
        intros ev b s' Hev. apply per_event_post. now apply scan_wf in Hev.
    + split; [now apply quiet_navigated, quiet_log, quiet_log|].
      now exists (nav s), (artist_url artist_id).
  - simpl. split; [exact Hacc|]. now apply quiet_log, quiet_log, quiet_log.
Qed.

Lemma poll_post (artists : list string)
    (acc : gmap string Z * list finding) (s : St) :
  loop_inv acc s ->
  post (poll w (check_new w) artists acc s) loop_inv loop_exn.
Proof.
  intros H. unfold poll. apply post_for_each; [|exact H].
  intros a b s' _. apply per_artist_post.
Qed.

End CycleInvariant.

(* ===================================================================== *)
(** ** Deduplication across cycles *)
(* ===================================================================== *)

Section Dedup.
Import Eff Extractor Detector Store Monitor.

Lemma sends_deliveries (fs : list finding) :
  sends (deliveries fs) = map message fs.
Proof. induction fs as [|f fs IH]; simpl; [reflexivity | now rewrite IH]. Qed.

(** The reading of the clock the pruning pass took in the cycle that
    ended in [s]: the last but one, the last being the one of
    [save_state]. *)
Definition prune_time (w : world) (s : St) : Z :=
  clock w (Nat.pred (Nat.pred (clk s))).

(** What one cycle does to the state it started from. *)
Lemma cycle_post (cfg : config) (w : world) (s : St) :
  post (run_check cfg w s)
    (fun fs s' =>
       exists n,
         dedup_inv (notified_of (file s)) (n, fs)
         /\ notified_of (file s') = prune (prune_time w s') n
         /\ sends (out s') = sends (out s) ++ map message fs
         /\ naps s' = naps s)
    (fun e s' =>
       file s' = file s /\ sends (out s') = sends (out s)
       /\ naps s' = naps s /\ raised_by w e).
Proof.
  rewrite run_check_run.
  pose proof (poll_post w (notified_of (file s)) s (ARTISTS cfg)
                (notified_of (file s), []) s
                (conj (dedup_inv_init _) (quiet_refl s))) as H.
  destruct (poll w (check_new w) (ARTISTS cfg) (notified_of (file s), []) s)
    as [[[n fs]|e] s1]; simpl in H.
  - destruct H as [Hinv (Hf & Hs & Hn)]. simpl.
    exists n. split; [exact Hinv|].
    split; [reflexivity|]. split; [|exact Hn].
    rewrite sends_app, Hs. f_equal. simpl.
    now rewrite sends_app, sends_deliveries, app_nil_r.
  - destruct H as [(Hf & Hs & Hn) Hr]. simpl.
    split; [exact Hf|]. split; [|now split].
    rewrite sends_app, Hs. apply app_nil_r.
Qed.

(** [n] successive cycles: the result of each, and the final state. *)
Fixpoint cycles (cfg : config) (w : world) (n : nat) (s : St)
  : list (outcome (list finding)) * St :=
  match n with
  | O => ([], s)
  | S n' =>
      let (r, s1) := run_check cfg w s in
      let (rs, s2) := cycles cfg w n' s1 in
      (r :: rs, s2)
  end.





(** A site with the index page above and, behind every event link, the
    page with one purchasable and one muted block; the clock stands
    still. *)
Definition demo_world : world :=
  {| goto := fun _ u =>
       if String.eqb u (artist_url 38) then Ok index_page
       else Ok {| anchors := []; content := page_select_and_muted |};
     clock := fun _ => 1000;
     sleep := fun _ => Ok tt |}.

Definition demo_cfg : config :=
  {| ARTISTS := ["Travis Japan"]; CHECK_INTERVAL := 60 |}.

Definition demo_key : string := "/events/artist/38/101|12/25 18:00|Hall A".

(** The state after a first cycle on an empty state file. *)
Definition demo_state : St := (cycles demo_cfg demo_world 1 initial).2.

Example demo_three_cycles :
  map (fun r => match r with Ok fs => map finding_key fs | Raise _ => [] end)
      (cycles demo_cfg demo_world 3 initial).1
  = [ [ "/events/artist/38/101|12/25 18:00|Hall A";
        "/events/artist/38/102|12/25 18:00|Hall A" ]; []; [] ].
Proof. vm_compute. reflexivity. Qed.


End Dedup.

(* ===================================================================== *)
(** ** Error isolation inside a cycle *)
(* ===================================================================== *)

Section Isolation.
Import Eff Extractor Detector Store Monitor.

(** A page with nothing on it. *)
Definition empty_page : page := {| anchors := []; content := [] |}.

(** The world [w] in which every navigation that raised an [Exception]
    shows an empty page instead. *)
Definition heal (w : world) : world :=
  {| goto := fun n u =>
       match goto w n u with
       | Raise (Exception _) => Ok empty_page
       | r => r
       end;
     clock := clock w;
     sleep := sleep w |}.

(** The index pages of the configured artists always render. *)
Definition listings_render (cfg : config) (w : world) : Prop :=
  forall n a artist_id,
    a ∈ ARTISTS cfg -> resolve a = Some artist_id ->
    exists pg, goto w n (artist_url artist_id) = Ok pg.

(** Navigations raise nothing but [Exception]s. *)
Definition no_interrupt (w : world) : Prop :=
  forall n u e, goto w n u = Raise e -> exists msg, e = Exception msg.

(** Two machine states that differ in what was emitted only. *)
Definition same_but_out (s1 s2 : St) : Prop :=
  nav s1 = nav s2 /\ clk s1 = clk s2 /\ naps s1 = naps s2
  /\ file s1 = file s2.

Definition never (_ _ : exn) : Prop := False.

Lemma same_but_out_emitted (s1 s2 : St) (o1 o2 : list output) :
  same_but_out s1 s2 -> same_but_out (emitted s1 o1) (emitted s2 o2).
Proof. intros (H1 & H2 & H3 & H4). now repeat split. Qed.

Lemma same_but_out_navigated (s1 s2 : St) :
  same_but_out s1 s2 -> same_but_out (navigated s1) (navigated s2).
Proof. intros (H1 & H2 & H3 & H4). repeat split; simpl; congruence. Qed.

Lemma same_but_out_ticked (s1 s2 : St) :
  same_but_out s1 s2 -> same_but_out (ticked s1) (ticked s2).
Proof. intros (H1 & H2 & H3 & H4). repeat split; simpl; congruence. Qed.

Section Healed.
Variable cfg : config.
Variable w : world.
Hypothesis Hlist : listings_render cfg w.
Hypothesis Hexn : no_interrupt w.

Lemma check_new_sim (a : string) (ev : event) (t : listing)
    (acc : gmap string Z * list finding) (s1 s2 : St) :
  same_but_out s1 s2 ->
  agree (check_new w a ev acc t s1) (check_new (heal w) a ev acc t s2)
        eq never same_but_out.
Proof.
  intros Hs. destruct acc as [n fs]. rewrite !check_new_run.
  destruct Hs as (H1 & H2 & H3 & H4).
  case_bool_decide; simpl.
  - rewrite H2. split; [reflexivity|]. repeat split; simpl; congruence.
  - split; [reflexivity|]. now repeat split.
Qed.

Lemma per_event_sim (a : string) (ev : event)
    (acc : gmap string Z * list finding) (s1 s2 : St) :
  same_but_out s1 s2 ->
  agree (per_event w (check_new w) a acc ev s1)
        (per_event (heal w) (check_new (heal w)) a acc ev s2)
        eq never same_but_out.
Proof.
  intros Hs. rewrite !per_event_run. cbv zeta.
  assert (Hn : nav s2 = nav s1) by (now destruct Hs as (-> & _)).
  cbn [heal goto]. rewrite Hn.
  pose proof (same_but_out_navigated _ _
    (same_but_out_emitted s1 s2 [Log ("  チケット確認: " +:+ name ev)]
       [Log ("  チケット確認: " +:+ name ev)] Hs)) as Hs1.
  destruct (goto w (nav s1) (url ev)) as [pg|e] eqn:Hg.
  - destruct (is_empty (detect (content pg))).
    + split; [reflexivity|]. now apply same_but_out_emitted.
    + apply agree_for_each; [|reflexivity|exact Hs1].
      intros t b1 b2 t1 t2 _ -> Ht. now apply check_new_sim.
  - destruct (Hexn _ _ _ Hg) as [msg ->]. simpl.
    split; [reflexivity|]. now apply same_but_out_emitted.
Qed.

Lemma per_artist_sim (a : string)
    (acc : gmap string Z * list finding) (s1 s2 : St) :
  a ∈ ARTISTS cfg ->
  same_but_out s1 s2 ->
  agree (per_artist w (check_new w) acc a s1)
        (per_artist (heal w) (check_new (heal w)) acc a s2)
        eq never same_but_out.
Proof.
  intros Ha Hs. rewrite !per_artist_run, !get_event_urls_run.
  destruct (resolve a) as [artist_id|] eqn:Hr.
  - cbv zeta. simpl nav.
    assert (Hn : nav s2 = nav s1) by (now destruct Hs as (-> & _)).
    cbn [heal goto]. rewrite Hn.
    destruct (Hlist (nav s1) a artist_id Ha Hr) as [pg ->].
    assert (Hs1 : same_but_out
      (emitted
         (navigated
            (emitted (emitted s1 [Log ("--- " +:+ a +:+ " ---")])
               [Log ("  イベント一覧: " +:+ artist_url artist_id)]))
         (map event_log (scan artist_id (anchors pg) ∅)))
      (emitted
         (navigated
            (emitted (emitted s2 [Log ("--- " +:+ a +:+ " ---")])
               [Log ("  イベント一覧: " +:+ artist_url artist_id)]))
         (map event_log (scan artist_id (anchors pg) ∅)))).
    { now apply same_but_out_emitted, same_but_out_navigated,
        same_but_out_emitted, same_but_out_emitted. }
    destruct (is_empty (scan artist_id (anchors pg) ∅)).
    + split; [reflexivity|]. now apply same_but_out_emitted.
    + apply agree_for_each; [|reflexivity|exact Hs1].
      intros ev b1 b2 t1 t2 _ -> Ht. now apply per_event_sim.
  - simpl. split; [reflexivity|].
    now apply same_but_out_emitted, same_but_out_emitted,
      same_but_out_emitted.
Qed.

Lemma run_check_sim (s : St) :
  exists fs s1 s2,
    run_check cfg w s = (Ok fs, s1)
    /\ run_check cfg (heal w) s = (Ok fs, s2)
    /\ file s1 = file s2
    /\ is_Some (file s1).
Proof.
  rewrite !run_check_run.
  assert (H : agree
    (poll w (check_new w) (ARTISTS cfg) (notified_of (file s), []) s)
    (poll (heal w) (check_new (heal w)) (ARTISTS cfg)
          (notified_of (file s), []) s)
    eq never same_but_out).
  { unfold poll. apply agree_for_each; [|reflexivity|now repeat split].
    intros a b1 b2 t1 t2 Ha -> Ht. now apply per_artist_sim. }
  destruct (poll w (check_new w) (ARTISTS cfg) (notified_of (file s), []) s)
    as [[[n fs]|e] s1],
    (poll (heal w) (check_new (heal w)) (ARTISTS cfg)
          (notified_of (file s), []) s) as [[[n' fs']|e'] s2];
    simpl in H; try contradiction; [|destruct H as [[] _]].
  destruct H as [E (H1 & H2 & H3 & H4)]. inversion E; subst n' fs'.
  eexists _, _, _. split; [reflexivity|]. split; [reflexivity|].
  simpl. rewrite H2. split; [reflexivity | eexists; reflexivity].
Qed.

End Healed.

(** A site that is up for the first configured artist and times out on
    the index page of the second. *)
Definition second_listing_down : world :=
  {| goto := fun _ u =>
       if String.eqb u (artist_url 38) then Ok index_page
       else if String.eqb u (artist_url 40)
            then Raise (Exception "Timeout 30000ms exceeded.")
            else Ok {| anchors := []; content := page_select_and_muted |};
     clock := fun _ => 1000;
     sleep := fun _ => Ok tt |}.

Definition two_artists : config :=
  {| ARTISTS := ["Travis Japan"; "SixTONES"]; CHECK_INTERVAL := 60 |}.

(** The two listings the site above shows for the first artist. *)
Definition first_artist_findings : list finding :=
  [ {| artist := "Travis Japan"; event_name := "Winter Tour";
       event_url := "https://relief-ticket.jp/events/artist/38/101";
       f_date := "12/25 18:00"; f_venue := "Hall A";
       f_tickets := ["1"; "2"]; f_method := M_select |};
    {| artist := "Travis Japan"; event_name := "Spring Tour";
       event_url := "https://relief-ticket.jp/events/artist/38/102";
       f_date := "12/25 18:00"; f_venue := "Hall A";
       f_tickets := ["1"; "2"]; f_method := M_select |} ].

(** C3: the cycle does not isolate the failure of an artist's index
    page.  With the artists Travis Japan and SixTONES configured, on a
    site where the first artist has two events with a purchasable
    listing each and the index page of the second artist times out,
    [run_check] raises the timeout: neither of the two listings found
    for the first artist is delivered, and no state is persisted.  The
    same site asked for the first artist alone gives the two findings,
    delivers them and persists their keys.  ([get_event_urls] is called
    outside the [try] that guards [check_event_tickets].) *)
Theorem artist_failure_aborts_cycle :
  (run_check two_artists second_listing_down initial).1
  = Raise (Exception "Timeout 30000ms exceeded.")
  /\ sends (out (run_check two_artists second_listing_down initial).2) = []
  /\ file (run_check two_artists second_listing_down initial).2 = None
  /\ (run_check demo_cfg second_listing_down initial).1
     = Ok first_artist_findings
  /\ sends (out (run_check demo_cfg second_listing_down initial).2)
     = map message first_artist_findings
  /\ map (fun f =>
            notified_of
              (file (run_check demo_cfg second_listing_down initial).2)
            !! finding_key f) first_artist_findings
     = [Some 1000; Some 1000].
Proof. repeat split; vm_compute; reflexivity. Qed.

(** The failure of an index page ends the cycle, whatever the configured
    artists found before it: a cycle need not return, even when
    nothing but [Exception]s are raised. *)
Lemma listing_failure_ends_cycle :
  ~ (forall (cfg : config) (w : world) (s : St),
       no_interrupt w ->
       exists fs s', run_check cfg w s = (Ok fs, s') /\ is_Some (file s')).
Proof.
  intros H.
  destruct (H two_artists second_listing_down initial) as (fs & s' & E & _).
  - intros n u e. unfold second_listing_down. cbn [goto].
    destruct (String.eqb u (artist_url 38)); [discriminate|].
    destruct (String.eqb u (artist_url 40)); [|discriminate].
    intros Hr. inversion Hr. now eexists.
  - vm_compute in E. discriminate E.
Qed.

(** The event unit is isolated: an [Exception] raised while one event
    is checked is caught and logged, and the event contributes
    nothing: the loop body returns with the mapping and the findings
    unchanged.  When the index pages of the configured artists render
    and nothing but [Exception]s are raised, the cycle completes,
    persists its state, and its findings and persisted state are those
    of the same cycle with every failing event page replaced by an
    empty page. *)
Lemma event_isolation (cfg : config) (w : world) :
  (forall (a : string) (acc : gmap string Z * list finding) (ev : event)
          (s : St) (msg : string),
     goto w (nav s) (url ev) = Raise (Exception msg) ->
     per_event w (check_new w) a acc ev s
     = (Ok acc,
        emitted (navigated (emitted s [Log ("  チケット確認: " +:+ name ev)]))
          [Log ("  エラー (" +:+ name ev +:+ "): " +:+ msg)]))
  /\ (listings_render cfg w -> no_interrupt w ->
      forall s : St,
      exists fs s1 s2,
        run_check cfg w s = (Ok fs, s1)
        /\ run_check cfg (heal w) s = (Ok fs, s2)
        /\ file s1 = file s2
        /\ is_Some (file s1)).
Proof.
  split.
  - intros a acc ev s msg Hg. rewrite per_event_run. cbv zeta.
    now rewrite Hg.
  - intros Hlist Hexn s. now apply run_check_sim.
Qed.

(** Three events A, B, C; the page of B times out. *)
Definition three_events : page :=
  {| anchors :=
       [ {| href := Some "/events/artist/38/1"; inner_text := "A" |};
         {| href := Some "/events/artist/38/2"; inner_text := "B" |};
         {| href := Some "/events/artist/38/3"; inner_text := "C" |} ];
     content := [] |}.

Definition event_B : event :=
  {| name := "B"; url := BASE_URL +:+ "/events/artist/38/2";
     path := "/events/artist/38/2" |}.

Definition B_down : world :=
  {| goto := fun _ u =>
       if String.eqb u (artist_url 38) then Ok three_events
       else if String.eqb u (url event_B)
            then Raise (Exception "Timeout 30000ms exceeded.")
            else Ok {| anchors := []; content := page_select_and_muted |};
     clock := fun _ => 1000;
     sleep := fun _ => Ok tt |}.

Example B_down_findings :
  match (run_check demo_cfg B_down initial).1 with
  | Ok fs => map event_name fs
  | Raise _ => []
  end = ["A"; "C"]
  /\ map (fun k => notified_of (file (run_check demo_cfg B_down initial).2) !! k)
       [ "/events/artist/38/1|12/25 18:00|Hall A";
         "/events/artist/38/2|12/25 18:00|Hall A";
         "/events/artist/38/3|12/25 18:00|Hall A" ]
     = [Some 1000; None; Some 1000].
Proof. vm_compute. split; reflexivity. Qed.

Lemma event_isolation_witness :
  per_event B_down (check_new B_down) "Travis Japan" (∅, []) event_B initial
  = (Ok (∅, []),
     emitted (navigated (emitted initial [Log ("  チケット確認: " +:+ "B")]))
       [Log ("  エラー (" +:+ "B" +:+ "): " +:+ "Timeout 30000ms exceeded.")])
  /\ exists fs s1 s2,
       run_check demo_cfg B_down initial = (Ok fs, s1)
       /\ run_check demo_cfg (heal B_down) initial = (Ok fs, s2)
       /\ file s1 = file s2
       /\ is_Some (file s1).
Proof.
  split.
  - apply (proj1 (event_isolation demo_cfg B_down)
             "Travis Japan" (∅, []) event_B initial
             "Timeout 30000ms exceeded.").
    reflexivity.
  - apply (proj2 (event_isolation demo_cfg B_down)).
    + intros n a artist_id Ha Hr.
      apply list_elem_of_singleton in Ha. subst a.
      vm_compute in Hr. inversion Hr. exists three_events. reflexivity.
    + intros n u e. unfold B_down. cbn [goto].
      destruct (String.eqb u (artist_url 38)); [discriminate|].
      destruct (String.eqb u (url event_B)); [|discriminate].
      intros Hr. inversion Hr. now eexists.
Defined.

End Isolation.

(* ===================================================================== *)
(** ** The first cycle *)
(* ===================================================================== *)

Section FirstCycle.
Import Eff Extractor Detector Store Monitor.

(** What a cycle sees: an artist, one of its events, one listing on the
    page of that event. *)
Definition observation : Type := string * event * listing.

(** The loop body that only records what it is given. *)
Definition record (a : string) (ev : event) (obs : list observation)
    (t : listing) : M (list observation) :=
  ret (obs ++ [(a, ev, t)]).

(** The listings the loops of a cycle go through, in order. *)
Definition observe (w : world) (artists : list string)
  : M (list observation) :=
  poll w record artists [].

Definition key_of (o : observation) : string :=
  dedup_key (path o.1.2) (date o.2) (venue o.2).

Definition finding_of (o : observation) : finding :=
  mk_finding o.1.1 o.1.2 o.2.

(** Two machine states that differ in the number of clock readings
    only. *)
Definition same_but_clk (s1 s2 : St) : Prop :=
  nav s1 = nav s2 /\ out s1 = out s2 /\ naps s1 = naps s2
  /\ file s1 = file s2.


Lemma same_but_clk_emitted (s1 s2 : St) (os : list output) :
  same_but_clk s1 s2 -> same_but_clk (emitted s1 os) (emitted s2 os).
Proof. intros (H1 & H2 & H3 & H4). repeat split; simpl; congruence. Qed.

Lemma same_but_clk_navigated (s1 s2 : St) :
  same_but_clk s1 s2 -> same_but_clk (navigated s1) (navigated s2).
Proof. intros (H1 & H2 & H3 & H4). repeat split; simpl; congruence. Qed.

Lemma same_but_clk_ticked (s1 s2 : St) :
  same_but_clk s1 s2 -> same_but_clk s1 (ticked s2).
Proof. intros (H1 & H2 & H3 & H4). now repeat split. Qed.

Variable w : world.






End FirstCycle.

Section FirstCycleDemo.
Import Eff Extractor Detector Store Monitor.

(** The listings of a first cycle on the demo site. *)
Definition demo_obs : list observation :=
  match (observe demo_world (ARTISTS demo_cfg) initial).1 with
  | Ok obs => obs
  | Raise _ => []
  end.

Example demo_obs_keys :
  map key_of demo_obs
  = [ "/events/artist/38/101|12/25 18:00|Hall A";
      "/events/artist/38/102|12/25 18:00|Hall A" ].
Proof. vm_compute. reflexivity. Qed.


End FirstCycleDemo.

(* ===================================================================== *)
(** ** The continuous loop *)
(* ===================================================================== *)

Section Continuous.
Import Eff Extractor Detector Store Monitor.

(** [s] after one sleep. *)
Definition slept (s : St) : St :=
  {| nav := nav s; clk := clk s; naps := S (naps s);
     out := out s; file := file s |}.

(** The line logged before the wait. *)
Definition next_check (cfg : config) : output :=
  Log ("次回チェック: " +:+ Str.of_int (CHECK_INTERVAL cfg) +:+ "秒後").

(** The end of an iteration whose cycle did not break out: the line
    announcing the next check, then the wait. *)
Definition wait (cfg : config) (w : world) (s : St) : outcome control * St :=
  (match sleep w (naps s) with
   | Ok _ => Ok Continue
   | Raise KeyboardInterrupt => Ok Break
   | Raise e => Raise e
   end,
   slept (emitted s [next_check cfg])).

(** An iteration of the loop as an equation on the result of its
    cycle. *)
Lemma iteration_run (cfg : config) (w : world) (s : St) :
  iteration cfg w s
  = match run_check cfg w s with
    | (Ok _, s1) => wait cfg w s1
    | (Raise (Exception msg), s1) =>
        wait cfg w
          (emitted s1 [Log ("エラー: " +:+ msg); PrintExc (Exception msg)])
    | (Raise KeyboardInterrupt, s1) => (Ok Break, s1)
    | (Raise (BaseException msg), s1) => (Raise (BaseException msg), s1)
    end.
Proof.
  unfold iteration. rewrite bind_run. unfold except_interrupt, try_except.
  rewrite bind_run.
  assert (Hwait : forall s2,
    (log ("次回チェック: " +:+ Str.of_int (CHECK_INTERVAL cfg) +:+ "秒後") ;;
     (fun s3 =>
        match (asleep w ;; ret Continue) s3 with
        | (Raise KeyboardInterrupt, s') => ret Break s'
        | r => r
        end)) s2 = wait cfg w s2).
  { intros s2. rewrite bind_run, log_run, bind_run. unfold asleep, wait.
    simpl. now destruct (sleep w (naps s2)) as [[]|[msg| |msg]]. }
  destruct (run_check cfg w s) as [[fs|[msg| |msg]] s1].
  - rewrite ret_run. apply Hwait.
  - rewrite bind_run, log_run, bind_run, emit_run, ret_run, emitted_app.
    apply Hwait.
  - now rewrite ret_run.
  - reflexivity.
Qed.

(** The world never interrupts: navigations raise [Exception]s only and
    sleeps return. *)
Definition uninterrupted (w : world) : Prop :=
  no_interrupt w /\ forall n, sleep w n = Ok tt.

Lemma main_loop_running (cfg : config) (w : world) :
  uninterrupted w ->
  forall fuel s,
    exists s', main_loop cfg w fuel s = (Ok Running, s')
               /\ naps s' = (naps s + fuel)%nat.
Proof.
  intros [Hexn Hsleep]. induction fuel as [|fuel IH]; intros s.
  - exists s. split; [reflexivity | simpl; lia].
  - cbn [main_loop]. rewrite bind_run, iteration_run.
    pose proof (cycle_post cfg w s) as Hc.
    destruct (run_check cfg w s) as [[fs|e] s1]; simpl in Hc.
    + destruct Hc as (n & _ & _ & _ & Hn).
      unfold wait. rewrite Hsleep.
      destruct (IH (slept (emitted s1 [next_check cfg]))) as (s' & E & Hs').
      exists s'. split; [exact E|]. rewrite Hs'. simpl. lia.
    + destruct Hc as (_ & _ & Hn & (k & u & Hr)).
      destruct (Hexn _ _ _ Hr) as [msg ->].
      unfold wait. rewrite Hsleep.
      destruct (IH (slept (emitted
                  (emitted s1 [Log ("エラー: " +:+ msg);
                               PrintExc (Exception msg)])
                  [next_check cfg]))) as (s' & E & Hs').
      exists s'. split; [exact E|]. rewrite Hs'. simpl. lia.
Qed.

(** Some navigation raised something that is not an [Exception], or
    some sleep was cut short. *)
Definition interrupted (w : world) : Prop :=
  (exists n u e, goto w n u = Raise e /\ forall msg, e <> Exception msg)
  \/ (exists n e, sleep w n = Raise e).

Lemma main_loop_ends (cfg : config) (w : world) :
  forall fuel s r s',
    main_loop cfg w fuel s = (r, s') -> r <> Ok Running -> interrupted w.
Proof.
  induction fuel as [|fuel IH]; intros s r s' Hrun Hr.
  - simpl in Hrun. rewrite ret_run in Hrun. inversion Hrun; subst.
    now contradiction Hr.
  - cbn [main_loop] in Hrun. rewrite bind_run, iteration_run in Hrun.
    pose proof (cycle_post cfg w s) as Hc.
    destruct (run_check cfg w s) as [[fs|[msg| |msg]] s1]; simpl in Hc.
    + unfold wait in Hrun.
      destruct (sleep w (naps s1)) as [[]|e'] eqn:Hs.
      * apply (IH _ _ _ Hrun Hr).
      * right. now exists (naps s1), e'.
    + unfold wait in Hrun. simpl naps in Hrun.
      destruct (sleep w (naps s1)) as [[]|e'] eqn:Hs.
      * apply (IH _ _ _ Hrun Hr).
      * right. now exists (naps s1), e'.
    + destruct Hc as (_ & _ & _ & (k & u & Hg)).
      left. exists k, u, KeyboardInterrupt. split; [exact Hg | discriminate].
    + destruct Hc as (_ & _ & _ & (k & u & Hg)).
      left. exists k, u, (BaseException msg).
      split; [exact Hg | discriminate].
Qed.

(** C9: an [Exception] that escapes a cycle is caught by the loop,
    logged and printed with its trace, and followed by the line
    announcing the next check and the wait; the iteration then goes on
    to the next cycle unless the wait itself is interrupted.  In a
    world that never interrupts, the loop is still running after any
    number of iterations, each of which slept once; and the loop ends
    only when a navigation raised something other than an [Exception]
    or a sleep was cut short. *)
Theorem cycle_error_then_wait (cfg : config) (w : world) :
  (forall (s s1 : St) (msg : string),
     run_check cfg w s = (Raise (Exception msg), s1) ->
     iteration cfg w s
     = (match sleep w (naps s1) with
        | Ok _ => Ok Continue
        | Raise KeyboardInterrupt => Ok Break
        | Raise e => Raise e
        end,
        slept (emitted s1 [ Log ("エラー: " +:+ msg);
                            PrintExc (Exception msg);
                            next_check cfg ])))
  /\ (uninterrupted w ->
      forall fuel s,
        exists s', main_loop cfg w fuel s = (Ok Running, s')
                   /\ naps s' = (naps s + fuel)%nat)
  /\ (forall fuel s r s',
        main_loop cfg w fuel s = (r, s') -> r <> Ok Running ->
        interrupted w).
Proof.
  split; [|split].
  - intros s s1 msg Hr. rewrite iteration_run, Hr. unfold wait.
    now rewrite emitted_app.
  - apply main_loop_running.
  - apply main_loop_ends.
Qed.

(** The demo site, with the second wait cut short from the keyboard. *)
Definition ctrl_c_world : world :=
  {| goto := goto demo_world;
     clock := clock demo_world;
     sleep := fun n => if Nat.eqb n 1 then Raise KeyboardInterrupt else Ok tt |}.

Example ctrl_c_stops :
  (main_continuous demo_cfg ctrl_c_world 5 initial).1 = Ok Stopped
  /\ naps (main_continuous demo_cfg ctrl_c_world 5 initial).2 = 2%nat
  /\ last (out (main_continuous demo_cfg ctrl_c_world 5 initial).2)
     = Some (Log "監視終了").
Proof. vm_compute. repeat split. Qed.

(** The site of the demo with the index page of the second artist
    down, as above; the cycle raises each time. *)
Lemma cycle_error_then_wait_witness :
  (exists s1,
     iteration two_artists second_listing_down initial
     = (Ok Continue,
        slept (emitted s1 [ Log ("エラー: " +:+ "Timeout 30000ms exceeded.");
                            PrintExc (Exception "Timeout 30000ms exceeded.");
                            next_check two_artists ])))
  /\ (exists s',
       main_loop two_artists second_listing_down 3 initial = (Ok Running, s')
       /\ naps s' = (naps initial + 3)%nat)
  /\ interrupted ctrl_c_world.
Proof.
  split; [|split].
  - exists (run_check two_artists second_listing_down initial).2.
    apply (proj1 (cycle_error_then_wait two_artists second_listing_down)
             initial _ "Timeout 30000ms exceeded.").
    vm_compute. reflexivity.
  - apply (proj1 (proj2 (cycle_error_then_wait two_artists
                            second_listing_down))).
    split; [|reflexivity].
    intros n u e. unfold second_listing_down. cbn [goto].
    destruct (String.eqb u (artist_url 38)); [discriminate|].
    destruct (String.eqb u (artist_url 40)); [|discriminate].
    intros Hr. inversion Hr. now eexists.
  - apply (proj2 (proj2 (cycle_error_then_wait demo_cfg ctrl_c_world))
             5%nat initial
             (main_loop demo_cfg ctrl_c_world 5 initial).1
             (main_loop demo_cfg ctrl_c_world 5 initial).2).
    + now destruct (main_loop demo_cfg ctrl_c_world 5 initial).
    + vm_compute. discriminate.
Defined.

End Continuous.

(* ===================================================================== *)
(** ** More on the availability detector *)
(* ===================================================================== *)

Section DetectorMore.
Import Soup Detector.

Lemma flat_map_nil_iff {A B} (f : A -> list B) (l : list A) :
  flat_map f l = [] <-> forall x, In x l -> f x = [].
Proof.
  split; [|apply flat_map_nil].
  induction l as [|x l IH]; simpl; intros E y Hy; [destruct Hy|].
  apply app_eq_nil in E as [Ex El].
  destruct Hy as [<- | Hy]; [exact Ex | now apply IH].
Qed.

(** Whether a control has an enclosing [div.perform-list]. *)
Definition enclosed (sel : handle) : bool :=
  match find_parent "div" "perform-list" sel with
  | Some _ => true
  | None => false
  end.

Lemma strategy2_shape (soup : list node) :
  Forall (fun l => how l = M_active /\ tickets l = []) (strategy2 soup).
Proof.
  unfold strategy2.
  induction (select (has_class "perform-list") soup) as [|h hs IH]; simpl.
  - constructor.
  - apply Forall_app. split; [|exact IH]. unfold active_entry.
    destruct (negb _); repeat constructor.
Qed.

Lemma strategy3_shape (soup : list node) :
  Forall (fun l => l = button_listing) (strategy3 soup).
Proof.
  rewrite strategy3_repeat.
  induction (length (List.filter has_phrase (select clickable soup)));
    simpl; constructor; [reflexivity | exact IHn].
Qed.

(** X1: a result is the result of one strategy, and the method its
    entries carry tells which: a result of the selection-control
    strategy (not empty) has entries of method select; a result of the
    active-block strategy (selection-control empty) has entries of
    method active, without ticket labels; a result of the
    purchase-button strategy (the other two empty) has entries of
    method button only, all the same entry without date, venue or
    ticket labels.  So only the selection-control strategy ever fills
    in ticket labels. *)
Theorem detect_method_of_strategy (soup : list node) :
  (strategy1 soup <> [] /\ detect soup = strategy1 soup
   /\ Forall (fun l => how l = M_select) (detect soup))
  \/ (strategy1 soup = [] /\ strategy2 soup <> []
      /\ detect soup = strategy2 soup
      /\ Forall (fun l => how l = M_active /\ tickets l = []) (detect soup))
  \/ (strategy1 soup = [] /\ strategy2 soup = []
      /\ detect soup = strategy3 soup
      /\ Forall (fun l => how l = M_button /\ tickets l = []
                          /\ date l = unknown /\ venue l = unknown)
                (detect soup)).
Proof.
  rewrite detect_priority. simpl.
  destruct (strategy1 soup) as [|x l] eqn:E1; simpl.
  - right. destruct (strategy2 soup) as [|y l'] eqn:E2; simpl.
    + right. split; [reflexivity|]. split; [reflexivity|].
      assert (E3 : (if is_empty (strategy3 soup) then [] else strategy3 soup)
                   = strategy3 soup) by now destruct (strategy3 soup).
      rewrite E3. split; [reflexivity|].
      eapply Forall_impl; [apply strategy3_shape|].
      intros a ->. now repeat split.
    + left. split; [reflexivity|]. split; [discriminate|].
      split; [reflexivity|]. rewrite <- E2. apply strategy2_shape.
  - left. split; [discriminate|]. split; [reflexivity|].
    rewrite <- E1. apply strategy1_method.
Qed.

Lemma select_entry_nil (sel : handle) :
  select_entry sel = [] <-> enclosed sel = false.
Proof.
  unfold select_entry, enclosed.
  destruct (find_parent "div" "perform-list" sel); split; try discriminate;
    reflexivity.
Qed.

Lemma active_entry_nil (div : handle) :
  active_entry div = [] <-> has_class "text-muted" div.2 = true.
Proof.
  unfold active_entry. fold (has_class "text-muted" div.2).
  destruct (has_class "text-muted" div.2); simpl; split; try discriminate;
    reflexivity.
Qed.

Lemma button_entry_nil (btn : handle) :
  button_entry btn = [] <-> has_phrase btn = false.
Proof.
  unfold button_entry. fold (has_phrase btn).
  destruct (has_phrase btn); split; try discriminate; reflexivity.
Qed.

(** X2: the result is empty exactly when nothing on the page looks
    purchasable: no control sits in a [div.perform-list], every
    [.perform-list] element is muted, and no clickable element has the
    purchase phrase in its text.  So an unmuted block, or a control in
    a block, is never missed. *)
Theorem detect_empty_iff (soup : list node) :
  detect soup = []
  <-> (forall sel, In sel (select (has_class "ticket-select") soup) ->
                   enclosed sel = false)
      /\ (forall div, In div (select (has_class "perform-list") soup) ->
                      has_class "text-muted" div.2 = true)
      /\ (forall btn, In btn (select clickable soup) ->
                      has_phrase btn = false).
Proof.
  assert (H1 : strategy1 soup = []
               <-> forall sel, In sel (select (has_class "ticket-select") soup)
                               -> enclosed sel = false).
  { unfold strategy1. rewrite flat_map_nil_iff. split; intros H x Hx.
    - now apply select_entry_nil, H.
    - now apply select_entry_nil, H. }
  assert (H2 : strategy2 soup = []
               <-> forall div, In div (select (has_class "perform-list") soup)
                               -> has_class "text-muted" div.2 = true).
  { unfold strategy2. rewrite flat_map_nil_iff. split; intros H x Hx.
    - now apply active_entry_nil, H.
    - now apply active_entry_nil, H. }
  assert (H3 : strategy3 soup = []
               <-> forall btn, In btn (select clickable soup)
                               -> has_phrase btn = false).
  { unfold strategy3. rewrite flat_map_nil_iff. split; intros H x Hx.
    - now apply button_entry_nil, H.
    - now apply button_entry_nil, H. }
  rewrite <- H1, <- H2, <- H3, detect_priority. simpl.
  destruct (strategy1 soup) as [|x l]; simpl.
  - destruct (strategy2 soup) as [|y l']; simpl.
    + destruct (strategy3 soup); simpl; [tauto|].
      split; [discriminate | now intros (_ & _ & E)].
    + split; [discriminate | now intros (_ & E & _)].
  - split; [discriminate | now intros (E & _)].
Qed.

(** X3: the selection-control strategy gives one entry per control that
    sits in a [div.perform-list], not one per block: its length is the
    number of such controls. *)
Theorem strategy1_per_control (soup : list node) :
  length (strategy1 soup)
  = length (List.filter enclosed (select (has_class "ticket-select") soup)).
Proof.
  unfold strategy1.
  induction (select (has_class "ticket-select") soup) as [|h hs IH];
    simpl; [reflexivity|].
  rewrite length_app, IH. unfold select_entry, enclosed.
  now destruct (find_parent "div" "perform-list" h).
Qed.

(** A block with two quantity controls. *)
Definition page_two_controls : list node :=
  [ Tag "div" ["perform-list"] []
      [ Tag "div" ["lead"] [] [NavigableString "12/25"];
        Tag "p" [] [] [NavigableString "Hall A"];
        Tag "select" ["ticket-select"] [] [];
        Tag "select" ["ticket-select"] [] [] ];
    Tag "section" ["perform-list"] []
      [ Tag "select" ["ticket-select"] [] [] ] ].

Example detect_page_two_controls :
  detect page_two_controls
  = [ {| date := "12/25"; venue := "Hall A"; tickets := []; how := M_select |};
      {| date := "12/25"; venue := "Hall A"; tickets := []; how := M_select |} ].
Proof. vm_compute. reflexivity. Qed.

End DetectorMore.

(* ===================================================================== *)
(** ** More on the listing extractor *)
(* ===================================================================== *)

Section ExtractorMore.
Import Eff Extractor Monitor.

Lemma of_uint_no_slash (d : Decimal.uint) :
  Str.mem_char "/"%char (NilEmpty.string_of_uint d) = false.
Proof. induction d; simpl; auto. Qed.

Lemma of_int_no_slash (n : Z) : Str.mem_char "/"%char (Str.of_int n) = false.
Proof.
  unfold Str.of_int, NilZero.string_of_int, NilZero.string_of_uint.
  destruct (Z.to_int n) as [d|d]; destruct d; simpl;
    try reflexivity; apply of_uint_no_slash.
Qed.

Lemma of_int_inj (n m : Z) : Str.of_int n = Str.of_int m -> n = m.
Proof.
  unfold Str.of_int. intros E.
  assert (Hn : forall z, Z.to_int z <> Decimal.Pos Decimal.Nil
                         /\ Z.to_int z <> Decimal.Neg Decimal.Nil).
  { intros z. destruct z as [|p|p]; simpl; split; try discriminate.
    - intros H. inversion H. now apply DecimalPos.Unsigned.to_uint_nonnil in H1.
    - intros H. inversion H. now apply DecimalPos.Unsigned.to_uint_nonnil in H1. }
  pose proof (NilZero.isi (Z.to_int n) (proj1 (Hn n)) (proj2 (Hn n))) as H1.
  pose proof (NilZero.isi (Z.to_int m) (proj1 (Hn m)) (proj2 (Hn m))) as H2.
  rewrite E in H1. rewrite H1 in H2. inversion H2 as [H3].
  rewrite <- (DecimalZ.of_to n), <- (DecimalZ.of_to m). now rewrite H3.
Qed.

(** X4: the href pattern is anchored at its start only: whatever follows a
    matching href is accepted with it; and an href matches the pattern
    of one artist key only. *)
Theorem event_href_open_ended (artist_id : Z) (h : string) :
  event_href artist_id h = true ->
  (forall t, event_href artist_id (h +:+ t) = true)
  /\ (forall other, event_href other h = true -> other = artist_id).
Proof.
  unfold event_href. intros H.
  destruct (Str.strip_prefix
              ("/events/artist/" +:+ Str.of_int artist_id +:+ "/") h)
    as [r|] eqn:Er; [|discriminate].
  split.
  - intros t. rewrite (strip_prefix_append _ _ t _ Er).
    now apply starts_decimal_append.
  - intros other Ho.
    destruct (Str.strip_prefix
                ("/events/artist/" +:+ Str.of_int other +:+ "/") h)
      as [r'|] eqn:Er'; [|discriminate].
    apply strip_prefix_Some in Er, Er'. rewrite Er in Er'.
    rewrite !append_assoc in Er'. apply append_inj_l in Er'.
    destruct (split_at_first "/"%char (Str.of_int artist_id)
                (Str.of_int other) r r'
                (of_int_no_slash _) (of_int_no_slash _) Er') as [E _].
    symmetry. now apply of_int_inj.
Qed.

Lemma event_href_open_ended_witness :
  (forall t, event_href 38 ("/events/artist/38/101" +:+ t) = true)
  /\ (forall other, event_href other "/events/artist/38/101" = true ->
                    other = 38).
Proof.
  apply (event_href_open_ended 38 "/events/artist/38/101"). reflexivity.
Defined.

Lemma scan_nil_iff (artist_id : Z) (links : list link) :
  scan artist_id links ∅ = []
  <-> forall l, l ∈ links -> event_href artist_id (href_or_empty l) = false.
Proof.
  split.
  - intros E l Hl.
    destruct (event_href artist_id (href_or_empty l)) eqn:Hm; [|reflexivity].
    assert (Hin : href_or_empty l
                  ∈ map path (scan artist_id links ∅)).
    { rewrite scan_paths, filter_all by (intros h; apply not_elem_of_empty).
      assert (Hf : href_or_empty l
                   ∈ filter (fun h => event_href artist_id h = true)
                       (map href_or_empty links)).
      { apply list_elem_of_filter. split; [exact Hm|].
        apply list_elem_of_fmap. now exists l. }
      revert Hf.
      generalize (filter (fun h => event_href artist_id h = true)
                    (map href_or_empty links)).
      intros hs. induction hs as [|x hs IH]; intros Hf; [inversion Hf|].
      simpl. destruct (decide (href_or_empty l = x)) as [->|Hne].
      - now left.
      - right. apply list_elem_of_filter. split; [exact Hne|].
        apply IH. apply elem_of_cons in Hf as [Hf | Hf];
          [contradiction | exact Hf]. }
    rewrite E in Hin. inversion Hin.
  - intros H. generalize (∅ : gset string).
    induction links as [|l links IH]; intros seen; simpl; [reflexivity|].
    rewrite (H l) by now left. simpl. apply IH.
    intros l' Hl'. apply H. now right.
Qed.

(** X5: what [get_event_urls] touches: it leaves the state file and the
    sleeps alone, emits log lines only, and navigates once when the
    artist resolves and not at all otherwise; when it raises, the
    exception is the one its navigation raised. *)
Theorem get_event_urls_footprint (w : world) (artist_name : string) (s : St) :
  let r := get_event_urls w artist_name s in
  naps r.2 = naps s /\ file r.2 = file s
  /\ nav r.2 = (nav s + match resolve artist_name with
                        | Some _ => 1
                        | None => 0
                        end)%nat
  /\ (exists logs, out r.2 = out s ++ map Log logs)
  /\ (forall e, r.1 = Raise e ->
                exists artist_id,
                  resolve artist_name = Some artist_id
                  /\ goto w (nav s) (artist_url artist_id) = Raise e).
Proof.
  cbv zeta. rewrite get_event_urls_run.
  destruct (resolve artist_name) as [artist_id|]; simpl.
  - destruct (goto w (nav s) (artist_url artist_id)) as [pg|e] eqn:Hg; simpl.
    + repeat split; try lia.
      * exists (("  イベント一覧: " +:+ artist_url artist_id)
                :: map (fun ev => "    イベント: " +:+ name ev)
                     (scan artist_id (anchors pg) ∅)).
        rewrite <- app_assoc. simpl. do 2 f_equal.
        now rewrite map_map.
      * discriminate.
    + repeat split; try lia.
      * now exists ["  イベント一覧: " +:+ artist_url artist_id].
      * intros e' E. inversion E; subst. now exists artist_id.
  - repeat split; try lia.
    + now exists ["  アーティストID不明: " +:+ artist_name].
    + discriminate.
Qed.

(** X6: every descriptor returned for an artist is an event link of that
    artist: the artist resolves to a key, the path matches the pattern
    for that key, and the URL is the site root followed by the path.
    The list is empty exactly when no link of the page matches. *)
Theorem get_event_urls_sound (w : world) (artist_name : string) (s : St)
    (events : list event) (s' : St) :
  get_event_urls w artist_name s = (Ok events, s') ->
  (forall ev, ev ∈ events ->
     exists artist_id,
       resolve artist_name = Some artist_id
       /\ event_href artist_id (path ev) = true
       /\ url ev = BASE_URL +:+ path ev)
  /\ (forall artist_id pg,
        resolve artist_name = Some artist_id ->
        goto w (nav s) (artist_url artist_id) = Ok pg ->
        (events = []
         <-> forall l, l ∈ anchors pg ->
                       event_href artist_id (href_or_empty l) = false)).
Proof.
  rewrite get_event_urls_run.
  destruct (resolve artist_name) as [artist_id|]; simpl.
  - destruct (goto w (nav s) (artist_url artist_id)) as [pg|e] eqn:Hg;
      [|discriminate].
    intros E. inversion E; subst. split.
    + intros ev Hev. exists artist_id. split; [reflexivity|].
      destruct (scan_first_occurrence _ _ _ _ Hev)
        as (_ & l & _ & _ & _ & _ & Hm & ->).
      split; [exact Hm | reflexivity].
    + intros id' pg' Hid Hpg. inversion Hid; subst.
      rewrite Hg in Hpg. inversion Hpg; subst.
      apply scan_nil_iff.
  - intros E. inversion E; subst. split.
    + intros ev Hev. inversion Hev.
    + intros id' pg' Hid. discriminate Hid.
Qed.

Lemma get_event_urls_sound_witness :
  (forall ev, ev ∈ scan 38 (anchors index_page) ∅ ->
     exists artist_id,
       resolve "Travis Japan" = Some artist_id
       /\ event_href artist_id (path ev) = true
       /\ url ev = BASE_URL +:+ path ev)
  /\ (scan 38 (anchors index_page) ∅ = []
      <-> forall l, l ∈ anchors index_page ->
                    event_href 38 (href_or_empty l) = false).
Proof.
  assert (E : get_event_urls index_world "Travis Japan" initial
              = (Ok (scan 38 (anchors index_page) ∅),
                 (get_event_urls index_world "Travis Japan" initial).2))
    by (vm_compute; reflexivity).
  destruct (get_event_urls_sound index_world "Travis Japan" initial _ _ E)
    as [H1 H2].
  split; [exact H1|]. apply (H2 38 index_page); reflexivity.
Defined.

End ExtractorMore.

(* ===================================================================== *)
(** ** More on pruning *)
(* ===================================================================== *)

Section PruningMore.
Import Store.

(** X7: pruning only removes entries and never alters a timestamp;
    pruning at one time and then at another is pruning once at the
    later of the two times, and a repeated pass at the same time
    changes nothing. *)
Theorem prune_compose (now1 now2 : Z) (m : gmap string Z) :
  prune now1 m ⊆ m
  /\ prune now2 (prune now1 m) = prune (Z.max now1 now2) m
  /\ prune now1 (prune now1 m) = prune now1 m.
Proof.
  assert (Hc : forall a b, prune b (prune a m) = prune (Z.max a b) m).
  { intros a b. apply map_eq. intros k. rewrite !prune_lookup.
    unfold cutoff. destruct (m !! k) as [ts|]; [|reflexivity].
    repeat case_bool_decide; try reflexivity; lia. }
  split; [|split].
  - apply map_subseteq_spec. intros k ts. rewrite prune_lookup.
    destruct (m !! k) as [ts'|]; [|discriminate].
    case_bool_decide; [auto | discriminate].
  - apply Hc.
  - rewrite Hc. now rewrite Z.max_id.
Qed.

End PruningMore.

(* ===================================================================== *)
(** ** Rules for the loops of a cycle *)
(* ===================================================================== *)

Section PollRules.
Import Eff Extractor Detector Store Monitor.

(** The event [ev] is an event link of the artist [a]. *)
Definition listed (a : string) (ev : event) : Prop :=
  exists artist_id,
    resolve a = Some artist_id
    /\ event_href artist_id (path ev) = true
    /\ wf_event ev.

Lemma scan_listed (a : string) (artist_id : Z) (links : list link)
    (ev : event) :
  resolve a = Some artist_id ->
  ev ∈ scan artist_id links ∅ -> listed a ev.
Proof.
  intros Hr Hev. exists artist_id. split; [exact Hr|].
  destruct (scan_first_occurrence _ _ _ _ Hev)
    as (_ & l & _ & _ & _ & _ & Hm & ->).
  split; [exact Hm | reflexivity].
Qed.

Lemma event_logs_as_logs (evs : list event) :
  map event_log evs
  = map Log (map (fun ev => "    イベント: " +:+ name ev) evs).
Proof. now rewrite map_map. Qed.

Section Unary.
Context {Acc : Type}.
Variable w : world.
Variable body : string -> event -> Acc -> listing -> M Acc.
Variable artists : list string.

(** An invariant of the variables the loops update and of the machine
    state, which the steps of the traversal itself (log lines and
    navigations) do not disturb. *)
Variable J : Acc -> St -> Prop.
Hypothesis J_log :
  forall acc s msgs, J acc s -> J acc (emitted s (map Log msgs)).
Hypothesis J_nav : forall acc s, J acc s -> J acc (navigated s).

(** How the loops end when they raise: the invariant still holds of
    some value, and the exception came from a navigation. *)
Definition poll_exn (e : exn) (s : St) : Prop :=
  (exists acc, J acc s) /\ raised_by w e.

Hypothesis J_body :
  forall a ev acc t s,
    a ∈ artists -> listed a ev -> J acc s ->
    post (body a ev acc t s) J poll_exn.

Lemma per_event_rule (a : string) (ev : event) (acc : Acc) (s : St) :
  a ∈ artists -> listed a ev -> J acc s ->
  post (per_event w body a acc ev s) J poll_exn.
Proof.
  intros Ha Hev HJ. rewrite per_event_run. cbv zeta.
  assert (H1 : J acc (navigated
                        (emitted s [Log ("  チケット確認: " +:+ name ev)]))).
  { apply J_nav. now apply (J_log acc s ["  チケット確認: " +:+ name ev]). }
  destruct (goto w (nav s) (url ev)) as [pg|e] eqn:Hg.
  - destruct (is_empty (detect (content pg))).
    + now apply (J_log acc _ ["    在庫なし"]).
    + apply post_for_each; [|exact H1].
      intros t b s' _. now apply J_body.
  - assert (Hr : raised_by w e) by (now exists (nav s), (url ev)).
    destruct e as [msg| |msg]; simpl.
    + now apply (J_log acc _ ["  エラー (" +:+ name ev +:+ "): " +:+ msg]).
    + split; [now exists acc | exact Hr].
    + split; [now exists acc | exact Hr].
Qed.

Lemma per_artist_rule (a : string) (acc : Acc) (s : St) :
  a ∈ artists -> J acc s ->
  post (per_artist w body acc a s) J poll_exn.
Proof.
  intros Ha HJ. rewrite per_artist_run, get_event_urls_run.
  pose proof (J_log acc s ["--- " +:+ a +:+ " ---"] HJ) as H0.
  destruct (resolve a) as [artist_id|] eqn:Hr.
  - cbv zeta. simpl nav.
    pose proof (J_nav _ _ (J_log acc _
                  ["  イベント一覧: " +:+ artist_url artist_id] H0)) as H1.
    destruct (goto w (nav s) (artist_url artist_id)) as [pg|e] eqn:Hg.
    + rewrite event_logs_as_logs.
      pose proof (J_log acc _
        (map (fun ev => "    イベント: " +:+ name ev)
             (scan artist_id (anchors pg) ∅)) H1) as H2.
      destruct (is_empty (scan artist_id (anchors pg) ∅)).
      * now apply (J_log acc _ ["  イベントなし"]).
      * apply post_for_each; [|exact H2].
        intros ev b s' Hev. apply per_event_rule; [exact Ha|].
        now apply (scan_listed a artist_id (anchors pg)).
    + split; [now exists acc|]. now exists (nav s), (artist_url artist_id).
  - simpl.
    apply (J_log acc _ ["  イベントなし"]).
    now apply (J_log acc _ ["  アーティストID不明: " +:+ a]).
Qed.

Lemma poll_rule (acc : Acc) (s : St) :
  J acc s -> post (poll w body artists acc s) J poll_exn.
Proof.
  intros HJ. unfold poll.
  assert (H : forall l, (forall a, a ∈ l -> a ∈ artists) ->
                forall acc s, J acc s ->
                  post (for_each (per_artist w body) l acc s) J poll_exn).
  { intros l Hl. apply post_for_each.
    intros a b s' Ha. apply per_artist_rule. now apply Hl. }
  now apply H.
Qed.

End Unary.

Section Binary.
Context {A1 A2 : Type}.
Variable w : world.
Variable body1 : string -> event -> A1 -> listing -> M A1.
Variable body2 : string -> event -> A2 -> listing -> M A2.
Variable Rv : A1 -> A2 -> Prop.

Hypothesis bodies_agree :
  forall a ev t x1 x2 s1 s2,
    Rv x1 x2 -> same_but_clk s1 s2 ->
    agree (body1 a ev x1 t s1) (body2 a ev x2 t s2) Rv eq same_but_clk.

Lemma per_event_agree (a : string) (ev : event) (x1 : A1) (x2 : A2)
    (s1 s2 : St) :
  Rv x1 x2 -> same_but_clk s1 s2 ->
  agree (per_event w body1 a x1 ev s1) (per_event w body2 a x2 ev s2)
        Rv eq same_but_clk.
Proof.
  intros Hx Hs. rewrite !per_event_run. cbv zeta.
  assert (Hn : nav s2 = nav s1) by (now destruct Hs as (-> & _)).
  rewrite Hn.
  pose proof (same_but_clk_navigated _ _
    (same_but_clk_emitted s1 s2 [Log ("  チケット確認: " +:+ name ev)] Hs))
    as Hs1.
  destruct (goto w (nav s1) (url ev)) as [pg|[msg| |msg]].
  - destruct (is_empty (detect (content pg))).
    + split; [exact Hx|]. now apply same_but_clk_emitted.
    + apply agree_for_each; [|exact Hx|exact Hs1].
      intros t b1 b2 t1 t2 _ Hb Ht. now apply bodies_agree.
  - split; [exact Hx|]. now apply same_but_clk_emitted.
  - now split.
  - now split.
Qed.

Lemma poll_agree (artists : list string) (x1 : A1) (x2 : A2) (s1 s2 : St) :
  Rv x1 x2 -> same_but_clk s1 s2 ->
  agree (poll w body1 artists x1 s1) (poll w body2 artists x2 s2)
        Rv eq same_but_clk.
Proof.
  unfold poll. apply agree_for_each.
  clear x1 x2 s1 s2. intros a x1 x2 s1 s2 _ Hx Hs.
  rewrite !per_artist_run, !get_event_urls_run.
  assert (Hn : nav s2 = nav s1) by (now destruct Hs as (-> & _)).
  destruct (resolve a) as [artist_id|].
  - cbv zeta. simpl nav. rewrite Hn.
    pose proof (same_but_clk_navigated _ _
      (same_but_clk_emitted _ _
         [Log ("  イベント一覧: " +:+ artist_url artist_id)]
         (same_but_clk_emitted s1 s2 [Log ("--- " +:+ a +:+ " ---")] Hs)))
      as Hs1.
    destruct (goto w (nav s1) (artist_url artist_id)) as [pg|e].
    + destruct (is_empty (scan artist_id (anchors pg) ∅)).
      * split; [exact Hx|].
        now apply same_but_clk_emitted, same_but_clk_emitted.
      * apply agree_for_each;
          [|exact Hx|now apply same_but_clk_emitted].
        intros ev b1 b2 t1 t2 _ Hb Ht. now apply per_event_agree.
    + now split.
  - simpl. split; [exact Hx|].
    now apply same_but_clk_emitted, same_but_clk_emitted, same_but_clk_emitted.
Qed.

End Binary.

End PollRules.

(* ===================================================================== *)
(** ** More on one cycle *)
(* ===================================================================== *)

Section CycleMore.
Import Eff Extractor Detector Store Monitor.

(** The listings of [obs] whose key is neither in [seen] nor on an
    earlier listing of [obs]. *)
Fixpoint new_listings (seen : gset string) (obs : list observation)
  : list observation :=
  match obs with
  | [] => []
  | o :: rest =>
      if bool_decide (key_of o ∈ seen) then new_listings seen rest
      else o :: new_listings ({[ key_of o ]} ∪ seen) rest
  end.

Definition keys_of (obs : list observation) : gset string :=
  list_to_set (map key_of obs).

Lemma keys_of_cons (x : observation) (obs : list observation) :
  keys_of (x :: obs) = {[ key_of x ]} ∪ keys_of obs.
Proof. reflexivity. Qed.

Lemma keys_of_snoc (obs : list observation) (o : observation) :
  keys_of (obs ++ [o]) = keys_of obs ∪ {[ key_of o ]}.
Proof.
  unfold keys_of. rewrite map_app, list_to_set_app_L. simpl.
  now rewrite (right_id_L ∅ (∪)).
Qed.

Lemma keys_of_nil (D : gset string) : D ∪ keys_of [] = D.
Proof. unfold keys_of. simpl. now rewrite (right_id_L ∅ (∪)). Qed.

Lemma new_listings_snoc (seen : gset string) (obs : list observation)
    (o : observation) :
  new_listings seen (obs ++ [o])
  = new_listings seen obs
    ++ (if bool_decide (key_of o ∈ seen ∪ keys_of obs) then [] else [o]).
Proof.
  revert seen. induction obs as [|x obs IH]; intros seen.
  - simpl. rewrite (bool_decide_ext (key_of o ∈ seen ∪ keys_of [])
                      (key_of o ∈ seen)); [reflexivity|].
    unfold keys_of. simpl. rewrite elem_of_union. split; [|now left].
    intros [H | H]; [exact H | now apply not_elem_of_empty in H].
  - cbn [app new_listings]. rewrite keys_of_cons.
    case_bool_decide as Hx.
    + rewrite IH. f_equal. apply f_equal with (f := fun b : bool =>
        if b then [] else [o]).
      apply bool_decide_ext. rewrite !elem_of_union, elem_of_singleton.
      split; [tauto|]. intros [H | [H | H]]; auto.
      left. now rewrite H.
    + rewrite IH. simpl. do 2 f_equal.
      apply f_equal with (f := fun b : bool => if b then [] else [o]).
      apply bool_decide_ext. rewrite !elem_of_union, elem_of_singleton.
      tauto.
Qed.

Variable cfg : config.
Variable w : world.
Variable s0 : St.

(** What the loops make of the mapping they started from: its entries
    are all there with their timestamps, and the keys beside them are
    the keys of the findings. *)
Definition grown (acc : gmap string Z * list finding) (_ : St) : Prop :=
  dom acc.1
  = dom (notified_of (file s0)) ∪ list_to_set (map finding_key acc.2)
  /\ (forall k ts, notified_of (file s0) !! k = Some ts ->
                   acc.1 !! k = Some ts).

Lemma grown_poll :
  post (poll w (check_new w) (ARTISTS cfg) (notified_of (file s0), []) s0)
       grown (poll_exn w grown).
Proof.
  apply poll_rule.
  - intros acc s msgs H. exact H.
  - intros acc s H. exact H.
  - intros a ev [n fs] t s _ (artist_id & _ & _ & Hwf) [H1 H2].
    rewrite check_new_run. simpl in H1, H2.
    case_bool_decide as Hk; simpl; [|now split].
    split; simpl.
    + rewrite dom_insert_L, H1, map_app, list_to_set_app_L.
      cbn [map list_to_set]. rewrite finding_key_mk by exact Hwf.
      apply set_eq. intros x.
      rewrite !elem_of_union, elem_of_singleton, elem_of_empty. tauto.
    + intros k ts Hm. rewrite lookup_insert_ne; [now apply H2|].
      intros <-. apply Hk. apply elem_of_dom. exists ts. now apply H2.
  - split; simpl; [|auto].
    apply set_eq. intros x. rewrite elem_of_union, elem_of_empty. tauto.
Qed.

(** X9: what a completed cycle persists.  Before the pruning pass the
    mapping holds the entries that were loaded, each with the
    timestamp it had, and beside them one entry under the key of each
    finding of the cycle, and nothing else; the state file then holds
    what the pruning pass leaves of it. *)
Theorem cycle_persists :
  post (run_check cfg w s0)
    (fun fs s' =>
       is_Some (file s')
       /\ exists n,
            notified_of (file s') = prune (prune_time w s') n
            /\ dom n = dom (notified_of (file s0))
                       ∪ list_to_set (map finding_key fs)
            /\ (forall k ts, notified_of (file s0) !! k = Some ts ->
                             n !! k = Some ts))
    (fun _ _ => True).
Proof.
  rewrite run_check_run. pose proof grown_poll as H.
  destruct (poll w (check_new w) (ARTISTS cfg) (notified_of (file s0), []) s0)
    as [[[n fs]|e] s1]; simpl in H |- *; [|exact I].
  destruct H as [H1 H2]. split; [eexists; reflexivity|].
  exists n. split; [reflexivity|]. now split.
Qed.

(** The recorded listings against the mapping and the findings. *)
Definition first_new (obs : list observation)
    (acc : gmap string Z * list finding) : Prop :=
  acc.2 = map finding_of (new_listings (dom (notified_of (file s0))) obs)
  /\ dom acc.1 = dom (notified_of (file s0)) ∪ keys_of obs.

Lemma record_first_new (a : string) (ev : event) (t : listing)
    (obs : list observation) (acc : gmap string Z * list finding)
    (s1 s2 : St) :
  first_new obs acc -> same_but_clk s1 s2 ->
  agree (record a ev obs t s1) (check_new w a ev acc t s2)
        first_new eq same_but_clk.
Proof.
  intros [Hfs Hdom] Hs. destruct acc as [n fs]. simpl in Hfs, Hdom.
  rewrite check_new_run. unfold record. rewrite ret_run.
  unfold first_new.
  change (dedup_key (path ev) (date t) (venue t)) with (key_of (a, ev, t)).
  case_bool_decide as Hk; simpl;
    (split; [|first [exact Hs | now apply same_but_clk_ticked]]).
  - split.
    + rewrite new_listings_snoc, <- Hdom.
      rewrite bool_decide_false by exact Hk.
      rewrite map_app, Hfs. reflexivity.
    + rewrite dom_insert_L, Hdom, keys_of_snoc. apply set_eq. intros x.
      rewrite !elem_of_union, elem_of_singleton. tauto.
  - split.
    + rewrite new_listings_snoc, <- Hdom.
      rewrite bool_decide_true by exact Hk.
      now rewrite app_nil_r.
    + rewrite keys_of_snoc, Hdom. rewrite Hdom in Hk.
      apply elem_of_union in Hk. apply set_eq. intros x.
      rewrite !elem_of_union, elem_of_singleton. split; [tauto|].
      intros [H | [H | ->]]; auto.
Qed.

Lemma observe_first_new :
  agree (observe w (ARTISTS cfg) s0)
        (poll w (check_new w) (ARTISTS cfg) (notified_of (file s0), []) s0)
        first_new eq same_but_clk.
Proof.
  unfold observe. apply poll_agree.
  - intros a ev t x1 x2 s1 s2. apply record_first_new.
  - split; simpl; [reflexivity|]. now rewrite keys_of_nil.
  - now repeat split.
Qed.

(** X10: the findings of a cycle are determined by the listings its loops
    go through and the keys in the mapping it starts from: they are the
    findings of the listings whose key is not in the mapping, each key
    taken at its first listing, in the order met.  The cycle raises
    exactly when the loops do, with the same exception. *)
Theorem cycle_findings :
  (run_check cfg w s0).1
  = match (observe w (ARTISTS cfg) s0).1 with
    | Ok obs =>
        Ok (map finding_of
              (new_listings (dom (notified_of (file s0))) obs))
    | Raise e => Raise e
    end.
Proof.
  rewrite run_check_run. pose proof observe_first_new as H.
  destruct (observe w (ARTISTS cfg) s0) as [[obs|e1] so],
    (poll w (check_new w) (ARTISTS cfg) (notified_of (file s0), []) s0)
      as [[[n fs]|e2] s1]; simpl in H |- *; try contradiction.
  - destruct H as [[Hfs _] _]. simpl in Hfs. now rewrite Hfs.
  - destruct H as [-> _]. reflexivity.
Qed.

Lemma new_listings_known (seen : gset string) (obs : list observation) :
  keys_of obs ⊆ seen -> new_listings seen obs = [].
Proof.
  induction obs as [|o obs IH]; intros Hsub; [reflexivity|].
  rewrite keys_of_cons in Hsub. simpl.
  rewrite bool_decide_true.
  - apply IH. intros k Hk. apply Hsub, elem_of_union. now right.
  - apply Hsub, elem_of_union. left. now apply elem_of_singleton.
Qed.

(** X11: a cycle whose loops meet only listings whose keys are already in
    the mapping returns no finding and pushes no message. *)
Theorem known_listings_silent (obs : list observation) (so : St) :
  observe w (ARTISTS cfg) s0 = (Ok obs, so) ->
  keys_of obs ⊆ dom (notified_of (file s0)) ->
  (run_check cfg w s0).1 = Ok []
  /\ sends (out (run_check cfg w s0).2) = sends (out s0).
Proof.
  intros Hobs Hsub.
  assert (E : (run_check cfg w s0).1 = Ok []).
  { rewrite run_check_run. pose proof observe_first_new as H.
    rewrite Hobs in H.
    destruct (poll w (check_new w) (ARTISTS cfg)
                (notified_of (file s0), []) s0)
      as [[[n fs]|e2] s1]; simpl in H |- *; [|contradiction].
    destruct H as [[Hfs _] _]. simpl in Hfs.
    now rewrite Hfs, new_listings_known. }
  split; [exact E|].
  pose proof (cycle_post cfg w s0) as H.
  destruct (run_check cfg w s0) as [[fs|e] s1]; simpl in *;
    [|discriminate E].
  inversion E; subst. destruct H as (n & _ & _ & Hs & _).
  rewrite Hs. apply app_nil_r.
Qed.


(** A finding names a configured artist and an event link of that
    artist. *)
Definition attributed (f : finding) : Prop :=
  artist f ∈ ARTISTS cfg
  /\ exists artist_id p,
       resolve (artist f) = Some artist_id
       /\ event_url f = BASE_URL +:+ p
       /\ event_href artist_id p = true.

Definition all_attributed (acc : gmap string Z * list finding) (_ : St)
  : Prop :=
  forall f, f ∈ acc.2 -> attributed f.

(** X12: every finding of a cycle is for a configured artist that resolves
    to a key, and its URL is the site root followed by an href matching
    the pattern of that key. *)
Theorem findings_attributed :
  post (run_check cfg w s0)
    (fun fs _ => forall f, f ∈ fs -> attributed f)
    (fun _ _ => True).
Proof.
  rewrite run_check_run.
  assert (H : post (poll w (check_new w) (ARTISTS cfg)
                      (notified_of (file s0), []) s0)
                all_attributed (poll_exn w all_attributed)).
  { apply poll_rule.
    - intros acc s msgs H. exact H.
    - intros acc s H. exact H.
    - intros a ev [n fs] t s Ha (artist_id & Hr & Hm & Hwf) H.
      rewrite check_new_run. case_bool_decide; simpl; [|exact H].
      intros f Hf. simpl in Hf. apply elem_of_app in Hf as [Hf | Hf].
      + now apply H.
      + apply list_elem_of_singleton in Hf as ->.
        split; [exact Ha|]. exists artist_id, (path ev).
        split; [exact Hr|]. split; [exact Hwf | exact Hm].
    - intros f Hf. inversion Hf. }
  destruct (poll w (check_new w) (ARTISTS cfg) (notified_of (file s0), []) s0)
    as [[[n fs]|e] s1]; simpl in H |- *; [exact H | exact I].
Qed.

End CycleMore.

Section CycleMoreDemo.
Import Eff Extractor Detector Store Monitor.

Lemma known_listings_silent_witness :
  (run_check demo_cfg demo_world demo_state).1 = Ok []
  /\ sends (out (run_check demo_cfg demo_world demo_state).2)
     = sends (out demo_state).
Proof.
  apply (known_listings_silent demo_cfg demo_world demo_state
           match (observe demo_world (ARTISTS demo_cfg) demo_state).1 with
           | Ok obs => obs
           | Raise _ => []
           end
           (observe demo_world (ARTISTS demo_cfg) demo_state).2).
  - vm_compute. reflexivity.
  - intros k Hk. unfold keys_of in Hk. apply elem_of_list_to_set in Hk.
    vm_compute in Hk. apply elem_of_dom. exists 1000.
    apply elem_of_cons in Hk as [-> | Hk]; [vm_compute; reflexivity|].
    apply elem_of_cons in Hk as [-> | Hk]; [vm_compute; reflexivity|].
    inversion Hk.
Defined.

Lemma cycle_persists_witness :
  exists n,
    notified_of (file (run_check demo_cfg demo_world demo_state).2)
    = prune (prune_time demo_world
               (run_check demo_cfg demo_world demo_state).2) n
    /\ dom n = dom (notified_of (file demo_state))
               ∪ list_to_set (map finding_key [])
    /\ n !! demo_key = Some 1000.
Proof.
  pose proof (cycle_persists demo_cfg demo_world demo_state) as H.
  assert (E : run_check demo_cfg demo_world demo_state
              = (Ok [], (run_check demo_cfg demo_world demo_state).2))
    by (vm_compute; reflexivity).
  rewrite E in H. unfold post in H.
  destruct H as [_ (n & H1 & H2 & H3)].
  exists n. split; [exact H1|]. split; [exact H2|].
  apply H3. vm_compute. reflexivity.
Defined.

Lemma poll_unresolved {Acc : Type} (w : world)
    (body : string -> event -> Acc -> listing -> M Acc)
    (artists : list string) (acc : Acc) (s : St) :
  (forall a, a ∈ artists -> resolve a = None) ->
  exists msgs, poll w body artists acc s = (Ok acc, emitted s (map Log msgs)).
Proof.
  revert s. induction artists as [|a artists IH]; intros s Hun.
  - exists []. unfold poll. simpl. now rewrite ret_run, emitted_nil.
  - unfold poll. cbn [for_each]. rewrite bind_run, per_artist_run.
    rewrite get_event_urls_run, (Hun a) by now left. simpl.
    destruct (IH (emitted
                    (emitted (emitted s [Log ("--- " +:+ a +:+ " ---")])
                       [Log ("  アーティストID不明: " +:+ a)])
                    [Log "  イベントなし"])) as [msgs E].
    { intros b Hb. apply Hun. now right. }
    unfold poll in E. rewrite E.
    exists (("--- " +:+ a +:+ " ---") :: ("  アーティストID不明: " +:+ a)
            :: "  イベントなし" :: msgs).
    now rewrite !emitted_app.
Qed.

(** X14: a configuration whose artist names resolve to no key is not an
    error: the cycle navigates nowhere, finds and pushes nothing, and
    still prunes and saves the state. *)
Theorem unknown_artists_skipped (cfg : config) (w : world) (s : St) :
  (forall a, a ∈ ARTISTS cfg -> resolve a = None) ->
  exists s',
    run_check cfg w s = (Ok [], s')
    /\ nav s' = nav s
    /\ sends (out s') = sends (out s)
    /\ notified_of (file s')
       = prune (prune_time w s') (notified_of (file s)).
Proof.
  intros Hun. rewrite run_check_run.
  destruct (poll_unresolved w (check_new w) (ARTISTS cfg)
              (notified_of (file s), []) s Hun) as [msgs ->].
  eexists. split; [reflexivity|]. simpl. repeat split.
  rewrite !sends_app. simpl. rewrite !app_nil_r.
  assert (E : sends (map Log msgs) = []) by (induction msgs; auto).
  rewrite E. apply app_nil_r.
Qed.

Lemma unknown_artists_skipped_witness :
  exists s',
    run_check {| ARTISTS := ["Nobody"; ""]; CHECK_INTERVAL := 60 |}
              demo_world demo_state = (Ok [], s')
    /\ nav s' = nav demo_state
    /\ sends (out s') = sends (out demo_state)
    /\ notified_of (file s')
       = prune (prune_time demo_world s') (notified_of (file demo_state)).
Proof.
  apply (unknown_artists_skipped
           {| ARTISTS := ["Nobody"; ""]; CHECK_INTERVAL := 60 |}
           demo_world demo_state).
  intros a Ha. cbn [ARTISTS] in Ha.
  apply elem_of_cons in Ha as [-> | Ha]; [reflexivity|].
  apply list_elem_of_singleton in Ha as ->. reflexivity.
Defined.

End CycleMoreDemo.

(* ===================================================================== *)
(** ** The rest of the script: configuration, delivery, [main] *)
(* ===================================================================== *)

Module Script.
Import Eff Extractor Detector Store Monitor.

(** [s.split(c)] for a separator of one character. *)
Fixpoint split (c : ascii) (s : string) : list string :=
  match s with
  | EmptyString => [EmptyString]
  | String a s' =>
      if Ascii.eqb a c then EmptyString :: split c s'
      else match split c s' with
           | x :: rest => String a x :: rest
           | [] => [String a EmptyString]
           end
  end.

(** [[a.strip() for a in value.split(",")]]: how [ARTISTS] is read from
    the environment value. *)
Definition parse_artists (value : string) : list string :=
  map Str.strip (split ","%char value).

(** A byte that continues a UTF-8 character. *)
Definition is_continuation (c : ascii) : bool :=
  let n := nat_of_ascii c in (128 <=? n)%nat && (n <? 192)%nat.

(** [s[:n]]: the first [n] characters of [s]. *)
Fixpoint take_chars (n : nat) (s : string) : string :=
  match s with
  | EmptyString => EmptyString
  | String c s' =>
      if is_continuation c then String c (take_chars n s')
      else match n with
           | O => EmptyString
           | S n' => String c (take_chars n' s')
           end
  end.

(** What [requests.post] returns, as far as [send_line] looks at it. *)
Record response : Type := Response {
  status_code : Z;
  text : string
}.

Definition falsy (s : string) : bool := String.eqb s "".

(** [send_line].  [post token user message] stands for the call of
    [requests.post] with the bearer token, the recipient and the text. *)
Definition send_line (LINE_TOKEN LINE_USER_ID : string)
    (post : string -> string -> string -> M response)
    (message : string) : M unit :=
  log ("通知送信: " +:+ take_chars 60 message +:+ "...") ;;
  if falsy LINE_TOKEN || falsy LINE_USER_ID then
    log "[LINE未設定] .envを設定してください"
  else
    try_except
      (resp <- post LINE_TOKEN LINE_USER_ID message ;;
       if status_code resp =? 200 then log "[LINE送信OK]"
       else log ("[LINE送信失敗] " +:+ Str.of_int (status_code resp)
                 +:+ ": " +:+ text resp))
      (fun msg => log ("[LINE送信エラー] " +:+ msg)).

(** What [main] is started with: the configuration, whether ["--once"]
    is among the arguments, and the two LINE settings. *)
Record env : Type := Env {
  cfg : config;
  once : bool;
  LINE_TOKEN : string;
  LINE_USER_ID : string
}.

(** [c * n]. *)
Fixpoint times (c : ascii) (n : nat) : string :=
  match n with
  | O => EmptyString
  | S n' => String c (times c n')
  end.

(** The lines [main] logs first. *)
Definition banner (e : env) : M unit :=
  log (times "="%char 50) ;;
  log "RELIEF Ticket リセールチケット監視" ;;
  log ("対象: " +:+ Str.join ", " (ARTISTS (cfg e))) ;;
  log ("モード: " +:+
       (if once e then "単発"
        else "ループ(" +:+ Str.of_int (CHECK_INTERVAL (cfg e))
             +:+ "秒間隔)")) ;;
  log ("LINE: " +:+
       (if negb (falsy (LINE_TOKEN e)) && negb (falsy (LINE_USER_ID e))
        then "設定済み" else "未設定")) ;;
  log (times "="%char 50).

(** [main], the loop running for at most [fuel] iterations. *)
Definition main (e : env) (w : world) (fuel : nat) : M loop_state :=
  banner e ;;
  if once e then
    run_check (cfg e) w ;; ret Stopped
  else main_continuous (cfg e) w fuel.

End Script.

Section ScriptFacts.
Import Eff Extractor Detector Store Monitor Script.

Example parse_artists_default :
  parse_artists "Travis Japan,SixTONES" = ["Travis Japan"; "SixTONES"]
  /\ parse_artists " Travis Japan , King & Prince,," 
     = ["Travis Japan"; "King & Prince"; ""; ""]
  /\ parse_artists "　Travis Japan ,SixTONES" = ["Travis Japan"; "SixTONES"]
  /\ parse_artists "" = [""].
Proof. repeat split; reflexivity. Qed.

Example take_chars_counts_characters :
  take_chars 3 "🎫 リセール" = "🎫 リ".
Proof. reflexivity. Qed.

(** The number of occurrences of [c] in [s]. *)
Fixpoint count_char (c : ascii) (s : string) : nat :=
  match s with
  | EmptyString => O
  | String a s' => (if Ascii.eqb a c then 1 else 0) + count_char c s'
  end.

Lemma split_length (c : ascii) (s : string) :
  length (split c s) = S (count_char c s).
Proof.
  induction s as [|a s IH]; simpl; [reflexivity|].
  destruct (Ascii.eqb a c); simpl; [now rewrite IH|].
  destruct (split c s) as [|x rest]; simpl in *; [discriminate | exact IH].
Qed.

Lemma split_no_separator (c : ascii) (s : string) :
  Forall (fun x => Str.mem_char c x = false) (split c s).
Proof.
  induction s as [|a s IH]; simpl; [repeat constructor|].
  destruct (Ascii.eqb a c) eqn:E; [constructor; [reflexivity | exact IH]|].
  destruct (split c s) as [|x rest]; [repeat constructor; simpl; now rewrite E|].
  inversion IH; subst. constructor; [|assumption]. simpl. now rewrite E.
Qed.

Lemma join_split (s : string) : Str.join "," (split ","%char s) = s.
Proof.
  induction s as [|a s IH]; [reflexivity|].
  cbn [split]. pose proof (split_length ","%char s) as Hl.
  destruct (Ascii.eqb a ","%char) eqn:E.
  - apply Ascii.eqb_eq in E as ->.
    destruct (split ","%char s) as [|x rest]; [discriminate Hl|].
    change (Str.join "," ("" :: x :: rest))
      with ("" +:+ "," +:+ Str.join "," (x :: rest)).
    now rewrite IH.
  - destruct (split ","%char s) as [|x [|y rest]]; [discriminate Hl| |].
    + simpl in IH |- *. now rewrite IH.
    + change (Str.join "," (String a x :: y :: rest))
        with (String a (x +:+ "," +:+ Str.join "," (y :: rest))).
      change (Str.join "," (x :: y :: rest))
        with (x +:+ "," +:+ Str.join "," (y :: rest)) in IH.
      now rewrite IH.
Qed.

Lemma mem_char_app (c : ascii) (a b : string) :
  Str.mem_char c (a +:+ b) = Str.mem_char c a || Str.mem_char c b.
Proof.
  induction a as [|x a IH]; [reflexivity|].
  rewrite append_cons. simpl. now rewrite IH, orb_assoc.
Qed.

(** Stripping brings no character in. *)
Lemma strip_mem (c : ascii) (s : string) :
  Str.mem_char c s = false -> Str.mem_char c (Str.strip s) = false.
Proof.
  destruct (strip_spec s) as [(pre & post & E & _) _].
  rewrite E at 1. rewrite !mem_char_app. intros H.
  apply orb_false_elim in H as [_ H].
  now apply orb_false_elim in H as [H _].
Qed.

(** X15: the configured artists are the comma-separated fields of the
    environment value, each without the white space at its two ends:
    the fields, joined by commas, give the value back and hold no
    comma themselves; there is one name per field, in order, so one
    more than there are commas and never none (an empty value gives
    the one empty name); and no name holds a comma. *)
Theorem parse_artists_fields (value : string) :
  exists fields,
    Str.join "," fields = value
    /\ Forall (fun field => Str.mem_char ","%char field = false) fields
    /\ length fields = S (count_char ","%char value)
    /\ Forall2 is_strip (parse_artists value) fields
    /\ Forall (fun name => Str.mem_char ","%char name = false)
              (parse_artists value)
    /\ (value = "" -> parse_artists value = [""]).
Proof.
  exists (split ","%char value). unfold parse_artists.
  split; [apply join_split|].
  split; [apply split_no_separator|].
  split; [apply split_length|].
  split; [|split].
  - induction (split ","%char value) as [|x l IH]; simpl; constructor;
      [apply strip_spec | exact IH].
  - apply Forall_map. eapply Forall_impl; [apply split_no_separator|].
    intros x Hx. now apply strip_mem.
  - now intros ->.
Qed.

Lemma parse_artists_fields_witness :
  parse_artists "" = [""]
  /\ exists fields,
       Str.join "," fields = "　Travis Japan ,SixTONES"
       /\ Forall2 is_strip (parse_artists "　Travis Japan ,SixTONES") fields.
Proof.
  split.
  - destruct (parse_artists_fields "") as (fields & _ & _ & _ & _ & _ & H).
    exact (H eq_refl).
  - destruct (parse_artists_fields "　Travis Japan ,SixTONES")
      as (fields & H1 & _ & _ & H4 & _).
    exists fields. now split.
Defined.

End ScriptFacts.

Section Delivery.
Import Eff Extractor Detector Store Monitor Script.

(** The line [send_line] logs first. *)
Definition announce (message : string) : output :=
  Log ("通知送信: " +:+ take_chars 60 message +:+ "...").

Lemma falsy_iff (s : string) : falsy s = true <-> s = "".
Proof. unfold falsy. apply String.eqb_eq. Qed.

(** X16: [send_line] announces the message first.  When the token or the
    recipient is missing it posts nothing and returns.  Otherwise it
    posts once and returns whatever the answer, logging success on
    status 200 only; an [Exception] of the post is caught and logged,
    so the only exceptions that leave it are those of the post that
    are not [Exception]s. *)
Theorem send_line_contained (token user : string)
    (post : string -> string -> string -> M response)
    (message : string) (s : St) :
  let r := send_line token user post message s in
  (token = "" \/ user = "" ->
   r = (Ok tt, emitted s [ announce message;
                            Log "[LINE未設定] .envを設定してください" ]))
  /\ (token <> "" -> user <> "" ->
      match post token user message (emitted s [announce message]) with
      | (Ok resp, s1) =>
          r = (Ok tt,
               emitted s1
                 [ if status_code resp =? 200 then Log "[LINE送信OK]"
                   else Log ("[LINE送信失敗] "
                             +:+ Str.of_int (status_code resp)
                             +:+ ": " +:+ text resp) ])
      | (Raise (Exception msg), s1) =>
          r = (Ok tt, emitted s1 [Log ("[LINE送信エラー] " +:+ msg)])
      | (Raise e, s1) => r = (Raise e, s1)
      end)
  /\ (forall msg, r.1 <> Raise (Exception msg)).
Proof.
  cbv zeta. unfold send_line. rewrite bind_run, log_run.
  fold (announce message).
  assert (Hcase : (falsy token || falsy user = true /\ (token = "" \/ user = ""))
                  \/ (falsy token || falsy user = false
                      /\ token <> "" /\ user <> "")).
  { destruct (falsy token) eqn:Et, (falsy user) eqn:Eu; simpl.
    - left. split; [reflexivity|]. left. now apply falsy_iff.
    - left. split; [reflexivity|]. left. now apply falsy_iff.
    - left. split; [reflexivity|]. right. now apply falsy_iff.
    - right. split; [reflexivity|].
      split; intros H; apply falsy_iff in H; congruence. }
  destruct Hcase as [[Hb Hmiss] | (Hb & Ht & Hu)]; rewrite Hb.
  - rewrite log_run, emitted_app. simpl.
    split; [reflexivity|]. split; [|discriminate].
    intros Ht Hu. destruct Hmiss; contradiction.
  - unfold try_except. rewrite bind_run.
    destruct (post token user message (emitted s [announce message]))
      as [[resp|[msg| |msg]] s1].
    + assert (E : (if status_code resp =? 200 then log "[LINE送信OK]"
                   else log ("[LINE送信失敗] "
                             +:+ Str.of_int (status_code resp)
                             +:+ ": " +:+ text resp)) s1
                  = (Ok tt,
                     emitted s1
                       [ if status_code resp =? 200 then Log "[LINE送信OK]"
                         else Log ("[LINE送信失敗] "
                                   +:+ Str.of_int (status_code resp)
                                   +:+ ": " +:+ text resp) ])).
      { now destruct (status_code resp =? 200). }
      rewrite E. simpl.
      split; [intros [H | H]; contradiction|].
      split; [reflexivity | discriminate].
    + rewrite log_run. simpl.
      split; [intros [H | H]; contradiction|].
      split; [reflexivity | discriminate].
    + simpl. split; [intros [H | H]; contradiction|].
      split; [reflexivity | discriminate].
    + simpl. split; [intros [H | H]; contradiction|].
      split; [reflexivity | discriminate].
Qed.

(** A push endpoint that answers 401. *)
Definition post_unauthorized (_ _ _ : string) : M response :=
  ret {| status_code := 401; text := "Unauthorized" |}.

Lemma send_line_contained_witness :
  send_line "" "U1" post_unauthorized "hello" initial
  = (Ok tt, emitted initial [ announce "hello";
                              Log "[LINE未設定] .envを設定してください" ])
  /\ send_line "T1" "U1" post_unauthorized "hello" initial
     = (Ok tt, emitted (emitted initial [announce "hello"])
                 [Log ("[LINE送信失敗] " +:+ "401" +:+ ": " +:+ "Unauthorized")]).
Proof.
  split.
  - apply (proj1 (send_line_contained "" "U1" post_unauthorized "hello"
                    initial)).
    now left.
  - apply (proj1 (proj2 (send_line_contained "T1" "U1" post_unauthorized
                           "hello" initial))); discriminate.
Defined.

End Delivery.

Section MainFacts.
Import Eff Extractor Detector Store Monitor Script.

(** What [banner] emits. *)
Definition banner_lines (e : env) : list output :=
  [ Log (times "="%char 50);
    Log "RELIEF Ticket リセールチケット監視";
    Log ("対象: " +:+ Str.join ", " (ARTISTS (cfg e)));
    Log ("モード: " +:+
         (if once e then "単発"
          else "ループ(" +:+ Str.of_int (CHECK_INTERVAL (cfg e))
               +:+ "秒間隔)"));
    Log ("LINE: " +:+
         (if negb (falsy (LINE_TOKEN e)) && negb (falsy (LINE_USER_ID e))
          then "設定済み" else "未設定"));
    Log (times "="%char 50) ].

Lemma banner_run (e : env) (s : St) :
  banner e s = (Ok tt, emitted s (banner_lines e)).
Proof.
  unfold banner.
  do 5 (rewrite bind_run, log_run; cbv beta iota).
  rewrite log_run, !emitted_app. reflexivity.
Qed.

(** X17: in single-shot mode [main] runs one cycle and no wait, and nothing
    catches what the cycle raises: an [Exception] of the cycle leaves
    [main], where the continuous loop would have logged it and gone
    on. *)
Theorem single_shot (e : env) (w : world) (fuel : nat) (s : St) :
  once e = true ->
  main e w fuel s
  = (match (run_check (cfg e) w (emitted s (banner_lines e))).1 with
     | Ok _ => Ok Stopped
     | Raise x => Raise x
     end,
     (run_check (cfg e) w (emitted s (banner_lines e))).2)
  /\ naps (main e w fuel s).2 = naps s.
Proof.
  intros Honce. unfold main. rewrite bind_run, banner_run, Honce.
  rewrite bind_run.
  pose proof (cycle_post (cfg e) w (emitted s (banner_lines e))) as H.
  destruct (run_check (cfg e) w (emitted s (banner_lines e)))
    as [[fs|x] s1]; simpl in *.
  - split; [reflexivity|]. now destruct H as (n & _ & _ & _ & Hn).
  - split; [reflexivity|]. now destruct H as (_ & _ & Hn & _).
Qed.

Lemma single_shot_witness :
  (main {| cfg := two_artists; once := true;
           LINE_TOKEN := ""; LINE_USER_ID := "" |}
        second_listing_down 7 initial).1
  = Raise (Exception "Timeout 30000ms exceeded.")
  /\ naps (main {| cfg := two_artists; once := true;
                   LINE_TOKEN := ""; LINE_USER_ID := "" |}
                second_listing_down 7 initial).2 = naps initial.
Proof.
  destruct (single_shot {| cfg := two_artists; once := true;
                           LINE_TOKEN := ""; LINE_USER_ID := "" |}
              second_listing_down 7 initial eq_refl) as [E Hn].
  split; [|exact Hn]. rewrite E. vm_compute. reflexivity.
Defined.

(** X18: how the continuous loop is left.  A [KeyboardInterrupt] raised
    inside the cycle, or inside the wait that follows a cycle, breaks
    the loop: [main] logs its last line and returns.  Anything else
    that is not an [Exception] ([CancelledError], by which
    [asyncio.run] cancels [main], or [SystemExit]) is caught nowhere:
    raised inside the cycle or the wait it leaves [main] at once,
    without the last line; and so does an [Exception] raised by the
    wait. *)
Theorem loop_exits (cfg : config) (w : world) (fuel : nat) (s : St) :
  (forall s1,
     run_check cfg w s = (Raise KeyboardInterrupt, s1) ->
     main_continuous cfg w (S fuel) s
     = (Ok Stopped, emitted s1 [Log "監視終了"]))
  /\ (forall fs s1,
        run_check cfg w s = (Ok fs, s1) ->
        sleep w (naps s1) = Raise KeyboardInterrupt ->
        main_continuous cfg w (S fuel) s
        = (Ok Stopped,
           emitted (slept (emitted s1 [next_check cfg])) [Log "監視終了"]))
  /\ (forall msg s1,
        run_check cfg w s = (Raise (BaseException msg), s1) ->
        main_continuous cfg w (S fuel) s = (Raise (BaseException msg), s1))
  /\ (forall fs s1 e,
        run_check cfg w s = (Ok fs, s1) ->
        sleep w (naps s1) = Raise e ->
        e <> KeyboardInterrupt ->
        main_continuous cfg w (S fuel) s
        = (Raise e, slept (emitted s1 [next_check cfg]))).
Proof.
  unfold main_continuous. cbn [main_loop].
  rewrite !bind_run, iteration_run.
  split; [|split; [|split]].
  - intros s1 Hr. rewrite Hr, ret_run.
    now rewrite bind_run, log_run, ret_run.
  - intros fs s1 Hr Hs. rewrite Hr. unfold wait. rewrite Hs, ret_run.
    now rewrite bind_run, log_run, ret_run.
  - intros msg s1 Hr. now rewrite Hr.
  - intros fs s1 e Hr Hs He. rewrite Hr. unfold wait. rewrite Hs.
    destruct e as [msg| |msg]; [reflexivity | now contradiction He
                                | reflexivity].
Qed.

(** The demo site, interrupted during the first navigation. *)
Definition ctrl_c_in_cycle : world :=
  {| goto := fun _ _ => Raise KeyboardInterrupt;
     clock := clock demo_world;
     sleep := sleep demo_world |}.

(** The demo site, interrupted during the first wait. *)
Definition ctrl_c_in_wait : world :=
  {| goto := goto demo_world;
     clock := clock demo_world;
     sleep := fun _ => Raise KeyboardInterrupt |}.

(** The demo site, with [main] cancelled during the first wait. *)
Definition cancelled_in_wait : world :=
  {| goto := goto demo_world;
     clock := clock demo_world;
     sleep := fun _ => Raise (BaseException "CancelledError") |}.

Lemma loop_exits_witness :
  (main_continuous demo_cfg ctrl_c_in_cycle 4 demo_state).1 = Ok Stopped
  /\ (main_continuous demo_cfg ctrl_c_in_wait 4 initial).1 = Ok Stopped
  /\ last (out (main_continuous demo_cfg ctrl_c_in_wait 4 initial).2)
     = Some (Log "監視終了")
  /\ (main_continuous demo_cfg cancelled_in_wait 4 initial).1
     = Raise (BaseException "CancelledError")
  /\ last (out (main_continuous demo_cfg cancelled_in_wait 4 initial).2)
     = Some (next_check demo_cfg).
Proof.
  destruct (loop_exits demo_cfg ctrl_c_in_cycle 3 demo_state) as [H1 _].
  rewrite (H1 (run_check demo_cfg ctrl_c_in_cycle demo_state).2)
    by (vm_compute; reflexivity).
  destruct (loop_exits demo_cfg ctrl_c_in_wait 3 initial) as (_ & H2 & _).
  rewrite (H2 first_artist_findings
              (run_check demo_cfg ctrl_c_in_wait initial).2)
    by (vm_compute; reflexivity).
  destruct (loop_exits demo_cfg cancelled_in_wait 3 initial)
    as (_ & _ & _ & H4).
  rewrite (H4 first_artist_findings
              (run_check demo_cfg cancelled_in_wait initial).2
              (BaseException "CancelledError"))
    by (vm_compute; first [reflexivity | discriminate]).
  repeat split; vm_compute; reflexivity.
Defined.

End MainFacts.
